(** * storages/factory.go: construction of a destination's storage proxy

    A shallow embedding of [Create] (package [storages]) and of the data it
    works on.  [Create] is one long function that calls into the packages
    [logging], [enrichment], [schema] and [events]; every such call is kept
    visible: it is written to a call trace, in program order, with the
    arguments it received.  The statements below are about the value
    [Create] returns and about that trace. *)

From stdpp Require Import base decidable option strings list gmap.

Open Scope string_scope.
Open Scope list_scope.

(** ** Go values *)

(** A Go [error] is identified with its message ([err.Error()]): the code
    builds errors with [errors.New] and [fmt.Errorf] and formats them with
    [%v]. *)
Definition error : Type := string.

(** A Go result pair [(T, error)] of a callee that follows the convention
    "the value is meaningful iff the error is nil". *)
Inductive result (A : Type) : Type :=
| Ok (a : A)
| Err (err : error).
Arguments Ok {A} a.
Arguments Err {A} err.

Definition is_err {A} (r : result A) : bool :=
  match r with Ok _ => false | Err _ => true end.

(** [strings.HasPrefix] and [strings.Contains], used to state what an error
    message says. *)
Fixpoint HasPrefix (s p : string) : bool :=
  match p, s with
  | EmptyString, _ => true
  | String c p', String d s' => if Ascii.eqb c d then HasPrefix s' p' else false
  | String _ _, EmptyString => false
  end.

Fixpoint Contains (s substr : string) : bool :=
  if HasPrefix s substr then true
  else match s with
       | EmptyString => false
       | String _ s' => Contains s' substr
       end.

(** ** Constants of the package *)

Definition defaultTableName : string := "events".
Definition BatchMode : string := "batch".
Definition StreamMode : string := "stream".

Definition unknownDestination : error := "Unknown destination type".

(** Modelled from the spec: the destination type identifiers are declared
    next to each storage, outside factory.go.  The recognized types are
    redshift, bigquery, postgres, clickhouse, s3 and snowflake. *)
Definition RedshiftType : string := "redshift".
Definition BigQueryType : string := "bigquery".
Definition PostgresType : string := "postgres".
Definition ClickHouseType : string := "clickhouse".
Definition S3Type : string := "s3".
Definition SnowflakeType : string := "snowflake".

Definition recognizedTypes : list string :=
  [RedshiftType; BigQueryType; PostgresType; ClickHouseType; S3Type; SnowflakeType].

(** The storage constructors [Create] hands to [newProxy]. *)
Inductive StorageFactory : Type :=
| NewAwsRedshift | NewBigQuery | NewPostgres | NewClickHouse | NewS3 | NewSnowflake.

(** ** Collaborators outside factory.go

    Types and functions of the packages [context], [adapters], [caching],
    [logging], [enrichment], [schema] and [events] that [Create] uses and
    whose code is not part of this file.  They are left abstract: every
    statement holds for all of them. *)
Class Externals : Type := {
  (* handed through to the storage, never inspected *)
  context_Context : Type;
  MonitorKeeper : Type;
  caching_EventsCache : Type;
  logging_Factory : Type;
  adapters_DataSourceConfig : Type;
  adapters_S3Config : Type;
  adapters_GoogleConfig : Type;
  adapters_ClickHouseConfig : Type;
  adapters_SnowflakeConfig : Type;
  (* package enrichment *)
  enrichment_RuleConfig : Type;
  enrichment_Rule : Type;
  RuleConfig_String : enrichment_RuleConfig → string;
  enrichment_DefaultJsIpRule : enrichment_Rule;
  enrichment_DefaultJsUaRule : enrichment_Rule;
  enrichment_NewRule : enrichment_RuleConfig → result enrichment_Rule;
  (* package schema *)
  schema_FieldMappingType : Type;
  FieldMappingType_String : schema_FieldMappingType → string;
  schema_Default : schema_FieldMappingType;
  schema_MappingField : Type;
  MappingField_String : schema_MappingField → string;
  schema_Mapping : Type;
  Fields : schema_Mapping → list schema_MappingField;
  KeepUnmapped : schema_Mapping → option bool;
  schema_Mapper : Type;
  schema_MappingStep : Type;
  schema_NewFieldMapper :
    schema_FieldMappingType → list string → option schema_Mapping →
    result (schema_Mapper * gmap string string);
  schema_NewMappingStep :
    string → string → schema_Mapper → list enrichment_Rule → bool →
    result schema_MappingStep;
  (* package events *)
  events_PersistentQueue : Type;
  PersistentQueue_eq_dec :: EqDecision events_PersistentQueue;
  events_NewPersistentQueue : string → string → result events_PersistentQueue;
}.

(** ** Configuration records *)

Section DataModel.
Context `{Externals}.

Record DataLayout : Type := {
  MappingType : schema_FieldMappingType;
  Mapping : list string;
  Mappings : option schema_Mapping;
  TableNameTemplate : string;
  PrimaryKeyFields : list string;
}.

(** Pointer fields are options.  [Enrichment] is a slice of pointers; its
    entries are taken to be non-nil: [Create] calls [String] on each and
    hands it to [enrichment.NewRule] without a nil check. *)
Record DestinationConfig : Type := {
  OnlyTokens : list string;
  Type_ : string;
  Mode : string;
  DataLayout_ : option DataLayout;
  Enrichment : list enrichment_RuleConfig;
  BreakOnError : bool;
  DataSource : option adapters_DataSourceConfig;
  S3 : option adapters_S3Config;
  Google : option adapters_GoogleConfig;
  ClickHouse : option adapters_ClickHouseConfig;
  Snowflake : option adapters_SnowflakeConfig;
}.

(** The assignments [destination.Type = v] and [destination.Mode = v] on
    the by-value parameter. *)
Definition set_Type (v : string) (d : DestinationConfig) : DestinationConfig :=
  {| OnlyTokens := OnlyTokens d; Type_ := v; Mode := Mode d;
     DataLayout_ := DataLayout_ d; Enrichment := Enrichment d;
     BreakOnError := BreakOnError d; DataSource := DataSource d; S3 := S3 d;
     Google := Google d; ClickHouse := ClickHouse d; Snowflake := Snowflake d |}.

Definition set_Mode (v : string) (d : DestinationConfig) : DestinationConfig :=
  {| OnlyTokens := OnlyTokens d; Type_ := Type_ d; Mode := v;
     DataLayout_ := DataLayout_ d; Enrichment := Enrichment d;
     BreakOnError := BreakOnError d; DataSource := DataSource d; S3 := S3 d;
     Google := Google d; ClickHouse := ClickHouse d; Snowflake := Snowflake d |}.

Record Config : Type := {
  ctx : context_Context;
  name : string;
  destination : DestinationConfig;
  processor : schema_MappingStep;
  streamMode : bool;
  monitorKeeper : MonitorKeeper;
  eventQueue : option events_PersistentQueue;
  eventsCache : caching_EventsCache;
  loggerFactory : logging_Factory;
  pkFields : gmap string bool;
  sqlTypeCasts : gmap string string;
}.

(** Modelled from the spec: [newProxy] (storages/proxy.go) is not part of
    factory.go.  The factory "dispatches to the matching constructor for
    the destination type", "producing a Delivery Orchestrator wired to the
    right adapter": the proxy is the constructor it was given together with
    the storage configuration. *)
Record StorageProxy : Type := newProxy {
  factoryMethod : StorageFactory;
  config : Config;
}.

End DataModel.

(** ** Calls and the call trace *)

Section Factory.
Context `{Externals}.

(** One entry per call that leaves factory.go, with the arguments of the
    call and, for the queue, what the call returned. *)
Inductive Call : Type :=
| logging_Infof (msg : string)
| logging_Warnf (msg : string)
| call_NewRule (ruleConfig : enrichment_RuleConfig)
| call_NewFieldMapper (mappingFieldType : schema_FieldMappingType)
    (oldStyleMappings : list string) (newStyleMapping : option schema_Mapping)
| call_NewMappingStep (name tableName : string) (fieldMapper : schema_Mapper)
    (enrichmentRules : list enrichment_Rule) (breakOnError : bool)
| call_NewPersistentQueue (queueName logEventPath : string)
    (returned : result events_PersistentQueue)
| call_Close (eventQueue : events_PersistentQueue)
| call_newProxy (factoryMethod : StorageFactory) (config : Config).

(** A computation returns a value and the calls it made, oldest first. *)
Definition M (A : Type) : Type := A * list Call.

Definition ret {A} (a : A) : M A := (a, []).

Definition bind {A B} (m : M A) (k : A → M B) : M B :=
  let r := k (fst m) in (fst r, snd m ++ snd r).

Definition call (c : Call) : M unit := (tt, [c]).

Definition value {A} (m : M A) : A := fst m.
Definition trace {A} (m : M A) : list Call := snd m.

End Factory.

Notation "'let*' x ':=' m 'in' k" := (bind m (fun x => k))
  (at level 10, x pattern, m at level 100, k at level 200).
Notation "m ';;' k" := (bind m (fun _ => k))
  (at level 100, k at level 200, right associativity).

Section Create.
Context `{Externals}.

(** [for _, x := range xs { body }] over a body that only makes calls. *)
Fixpoint forRange {A} (xs : list A) (body : A → M unit) : M unit :=
  match xs with
  | [] => ret tt
  | x :: xs' => body x;; forRange xs' body
  end.

(** Modelled from the spec: what [events.NewPersistentQueue] and [Close]
    (package [events]) do to the open queues is not part of factory.go.  A
    durable queue is an open resource from its construction until
    [close()].  [openQueues opened t] are the queues open after the calls
    [t], when [opened] were open before. *)
Fixpoint openQueues (opened : list events_PersistentQueue) (t : list Call) :
    list events_PersistentQueue :=
  match t with
  | [] => opened
  | call_NewPersistentQueue _ _ (Ok q) :: t' => openQueues (q :: opened) t'
  | call_Close q :: t' =>
      openQueues (filter (λ q', q' ≠ q) opened) t'
  | _ :: t' => openQueues opened t'
  end.

(** What [Create] returns: Go's triple, a nil pointer or interface being
    [None]. *)
Record Returned : Type := returned {
  storageProxy : option StorageProxy;
  queue : option events_PersistentQueue;
  err : option error;
}.

(** Lines 115-124: the loop over the configured enrichment rules, appending
    to [enrichmentRules]; it leaves [Create] at the first rule that cannot
    be built. *)
Fixpoint enrichmentLoop (name : string) (ruleConfigs : list enrichment_RuleConfig)
    (enrichmentRules : list enrichment_Rule) : M (result (list enrichment_Rule)) :=
  match ruleConfigs with
  | [] => ret (Ok enrichmentRules)
  | ruleConfig :: rest =>
      call (logging_Infof ("[" +:+ name +:+ "] " +:+ RuleConfig_String ruleConfig));;
      call (call_NewRule ruleConfig);;
      match enrichment_NewRule ruleConfig with
      | Err err =>
          ret (Err ("Error creating enrichment rule [" +:+ RuleConfig_String ruleConfig
                    +:+ "]: " +:+ err))
      | Ok rule => enrichmentLoop name rest (enrichmentRules ++ [rule])
      end
  end.

Definition Create (ctx : context_Context) (name logEventPath : string)
    (destination : DestinationConfig) (monitorKeeper : MonitorKeeper)
    (eventsCache : caching_EventsCache) (loggerFactory : logging_Factory) : M Returned :=
  let destination :=
    if decide (Type_ destination = "") then set_Type name destination else destination in
  let destination :=
    if decide (Mode destination = "") then set_Mode BatchMode destination else destination in
  call (logging_Infof ("[" +:+ name +:+ "] Initializing destination of type: "
        +:+ Type_ destination +:+ " in mode: " +:+ Mode destination));;
  let tableName := "" in
  let oldStyleMappings := [] in
  let newStyleMapping := None in
  let pkFields : gmap string bool := ∅ in
  let mappingFieldType := schema_Default in
  let '(mappingFieldType, oldStyleMappings, newStyleMapping, tableName, pkFields) :=
    match DataLayout_ destination with
    | Some dataLayout =>
        (MappingType dataLayout, Mapping dataLayout, Mappings dataLayout,
         (if decide (TableNameTemplate dataLayout ≠ "")
          then TableNameTemplate dataLayout else tableName),
         foldl (λ pk field, <[field := true]> pk) pkFields (PrimaryKeyFields dataLayout))
    | None => (mappingFieldType, oldStyleMappings, newStyleMapping, tableName, pkFields)
    end in
  let* tableName :=
    if decide (tableName = "")
    then call (logging_Infof ("[" +:+ name +:+ "] uses default table name: "
                              +:+ defaultTableName));;
         ret defaultTableName
    else ret tableName in
  if decide (Mode destination ≠ BatchMode ∧ Mode destination ≠ StreamMode)
  then ret (returned None None
         (Some ("Unknown destination mode: " +:+ Mode destination +:+ ". Available mode: ["
                +:+ BatchMode +:+ ", " +:+ StreamMode +:+ "]")))
  else
  (if decide (length (Enrichment destination) = 0)
   then call (logging_Warnf ("[" +:+ name +:+ "] doesn't have enrichment rules"))
   else call (logging_Infof ("[" +:+ name +:+ "] Configured enrichment rules:")));;
  let enrichmentRules := [enrichment_DefaultJsIpRule; enrichment_DefaultJsUaRule] in
  let* looped := enrichmentLoop name (Enrichment destination) enrichmentRules in
  match looped with
  | Err err => ret (returned None None (Some err))
  | Ok enrichmentRules =>
  call (call_NewFieldMapper mappingFieldType oldStyleMappings newStyleMapping);;
  match schema_NewFieldMapper mappingFieldType oldStyleMappings newStyleMapping with
  | Err err => ret (returned None None (Some err))
  | Ok (fieldMapper, sqlTypeCasts) =>
  let logOldStyle :=
    if decide (0 < length oldStyleMappings)
    then call (logging_Infof ("[" +:+ name +:+ "] Configured field mapping rules with ["
                 +:+ FieldMappingType_String mappingFieldType +:+ "] mode:"));;
         forRange oldStyleMappings
           (λ m, call (logging_Infof ("[" +:+ name +:+ "] " +:+ m)))
    else call (logging_Warnf ("[" +:+ name +:+ "] doesn't have mapping rules")) in
  match newStyleMapping with
  | Some mapping =>
      if decide (length (Fields mapping) ≠ 0)
      then
        let mappingMode := "keep unmapped fields" in
        let mappingMode :=
          match KeepUnmapped mapping with
          | Some false => "remove unmapped fields"
          | _ => mappingMode
          end in
        call (logging_Infof ("[" +:+ name +:+ "] Configured field mapping rules with ["
                +:+ mappingMode +:+ "] mode:"));;
        forRange (Fields mapping)
          (λ mrc, call (logging_Infof ("[" +:+ name +:+ "] " +:+ MappingField_String mrc)))
      else logOldStyle
  | None => logOldStyle
  end;;
  call (call_NewMappingStep name tableName fieldMapper enrichmentRules
          (BreakOnError destination));;
  match schema_NewMappingStep name tableName fieldMapper enrichmentRules
          (BreakOnError destination) with
  | Err err => ret (returned None None (Some err))
  | Ok processor =>
  let* opened :=
    if decide (Mode destination = StreamMode)
    then
      let made := events_NewPersistentQueue ("queue.dst=" +:+ name) logEventPath in
      call (call_NewPersistentQueue ("queue.dst=" +:+ name) logEventPath made);;
      match made with
      | Err err => ret (Err err)
      | Ok eventQueue => ret (Ok (Some eventQueue))
      end
    else ret (Ok None) in
  match opened with
  | Err err => ret (returned None None (Some err))
  | Ok eventQueue =>
  let storageConfig :=
    {| ctx := ctx; name := name; destination := destination; processor := processor;
       streamMode := bool_decide (Mode destination = StreamMode);
       monitorKeeper := monitorKeeper; eventQueue := eventQueue;
       eventsCache := eventsCache; loggerFactory := loggerFactory;
       pkFields := pkFields; sqlTypeCasts := sqlTypeCasts |} in
  let dispatch (factoryMethod : StorageFactory) : M Returned :=
    call (call_newProxy factoryMethod storageConfig);;
    ret (returned (Some (newProxy factoryMethod storageConfig)) eventQueue None) in
  if decide (Type_ destination = RedshiftType) then dispatch NewAwsRedshift
  else if decide (Type_ destination = BigQueryType) then dispatch NewBigQuery
  else if decide (Type_ destination = PostgresType) then dispatch NewPostgres
  else if decide (Type_ destination = ClickHouseType) then dispatch NewClickHouse
  else if decide (Type_ destination = S3Type) then dispatch NewS3
  else if decide (Type_ destination = SnowflakeType) then dispatch NewSnowflake
  else
    match eventQueue with
    | Some q => call (call_Close q)
    | None => ret tt
    end;;
    ret (returned None None (Some unknownDestination))
  end end end end.

End Create.

(** ** Reading [Create]'s local variables off a configuration *)

Section Resolved.
Context `{Externals}.

(** Lines 65-70: the configuration after the two defaults. *)
Definition effectiveType (name : string) (d : DestinationConfig) : string :=
  if decide (Type_ d = "") then name else Type_ d.

Definition effectiveMode (d : DestinationConfig) : string :=
  if decide (Mode d = "") then BatchMode else Mode d.

Definition withDefaults (name : string) (d : DestinationConfig) : DestinationConfig :=
  set_Mode (effectiveMode d) (set_Type (effectiveType name d) d).

(** Lines 74-96: what the [data_layout] block resolves to. *)
Definition mappingFieldTypeOf (d : DestinationConfig) : schema_FieldMappingType :=
  match DataLayout_ d with Some dl => MappingType dl | None => schema_Default end.

Definition oldStyleMappingsOf (d : DestinationConfig) : list string :=
  match DataLayout_ d with Some dl => Mapping dl | None => [] end.

Definition newStyleMappingOf (d : DestinationConfig) : option schema_Mapping :=
  match DataLayout_ d with Some dl => Mappings dl | None => None end.

Definition templateOf (d : DestinationConfig) : string :=
  match DataLayout_ d with Some dl => TableNameTemplate dl | None => "" end.

Definition tableNameOf (d : DestinationConfig) : string :=
  if decide (templateOf d = "") then defaultTableName else templateOf d.

Definition pkFieldsOf (d : DestinationConfig) : gmap string bool :=
  match DataLayout_ d with
  | Some dl => foldl (λ pk field, <[field := true]> pk) ∅ (PrimaryKeyFields dl)
  | None => ∅
  end.

(** Lines 178-196: the constructor the [switch] selects, if any. *)
Definition factoryFor (type : string) : option StorageFactory :=
  if decide (type = RedshiftType) then Some NewAwsRedshift
  else if decide (type = BigQueryType) then Some NewBigQuery
  else if decide (type = PostgresType) then Some NewPostgres
  else if decide (type = ClickHouseType) then Some NewClickHouse
  else if decide (type = S3Type) then Some NewS3
  else if decide (type = SnowflakeType) then Some NewSnowflake
  else None.

(** The calls that build the pipeline, the queue and the proxy; the others
    are log lines and rule constructions. *)
Definition wiring (c : Call) : bool :=
  match c with
  | logging_Infof _ | logging_Warnf _ | call_NewRule _ => false
  | _ => true
  end.

Definition wiringCalls (t : list Call) : list Call := filter (λ c, wiring c = true) t.

End Resolved.

(** ** The ways through [Create]

    [Create] has six exits with an error and one without.  [Outcome]
    lists them with the returned triple and the wiring calls made on the
    way; [Create_outcome] below shows that every run of [Create] is one of
    them. *)

Section Stages.
Context `{Externals}.
Variables (ctx : context_Context) (name logEventPath : string)
  (monitorKeeper : MonitorKeeper)
  (eventsCache : caching_EventsCache) (loggerFactory : logging_Factory).

(** Line 99: the error for a mode that is neither "batch" nor "stream". *)
Definition modeError (mode : string) : error :=
  "Unknown destination mode: " +:+ mode +:+ ". Available mode: ["
  +:+ BatchMode +:+ ", " +:+ StreamMode +:+ "]".

(** Line 157: the queue name of a destination. *)
Definition queueName (name : string) : string := "queue.dst=" +:+ name.

(** Lines 109-112: the rules every destination starts with. *)
Definition defaultRules : list enrichment_Rule :=
  [enrichment_DefaultJsIpRule; enrichment_DefaultJsUaRule].

(** Line 120: the error for a rule that cannot be built. *)
Definition ruleError (ruleConfig : enrichment_RuleConfig) (err : error) : error :=
  "Error creating enrichment rule [" +:+ RuleConfig_String ruleConfig +:+ "]: " +:+ err.

(** The value of [eventQueue] after lines 155-161, when they do not return. *)
Definition queueStage (mode : string) : result (option events_PersistentQueue) :=
  if decide (mode = StreamMode)
  then match events_NewPersistentQueue (queueName name) logEventPath with
       | Ok q => Ok (Some q)
       | Err e => Err e
       end
  else Ok None.

Definition queueCalls (mode : string) : list Call :=
  if decide (mode = StreamMode)
  then [call_NewPersistentQueue (queueName name) logEventPath
          (events_NewPersistentQueue (queueName name) logEventPath)]
  else [].

Definition closeCalls (eventQueue : option events_PersistentQueue) : list Call :=
  match eventQueue with Some q => [call_Close q] | None => [] end.

Definition storageConfigOf (d : DestinationConfig) (processor : schema_MappingStep)
    (eventQueue : option events_PersistentQueue) (sqlTypeCasts : gmap string string) : Config :=
  Build_Config ctx name d processor (bool_decide (Mode d = StreamMode)) monitorKeeper
    eventQueue eventsCache loggerFactory (pkFieldsOf d) sqlTypeCasts.

Inductive Outcome (d : DestinationConfig) : Returned → list Call → Prop :=
| exit_mode :
    Mode d ≠ BatchMode → Mode d ≠ StreamMode →
    Outcome d (returned None None (Some (modeError (Mode d)))) []
| exit_rule e :
    Mode d = BatchMode ∨ Mode d = StreamMode →
    value (enrichmentLoop name (Enrichment d) defaultRules) = Err e →
    Outcome d (returned None None (Some e)) []
| exit_mapper rules e :
    Mode d = BatchMode ∨ Mode d = StreamMode →
    value (enrichmentLoop name (Enrichment d) defaultRules) = Ok rules →
    schema_NewFieldMapper (mappingFieldTypeOf d) (oldStyleMappingsOf d)
      (newStyleMappingOf d) = Err e →
    Outcome d (returned None None (Some e))
      [call_NewFieldMapper (mappingFieldTypeOf d) (oldStyleMappingsOf d)
         (newStyleMappingOf d)]
| exit_step rules fm casts e :
    Mode d = BatchMode ∨ Mode d = StreamMode →
    value (enrichmentLoop name (Enrichment d) defaultRules) = Ok rules →
    schema_NewFieldMapper (mappingFieldTypeOf d) (oldStyleMappingsOf d)
      (newStyleMappingOf d) = Ok (fm, casts) →
    schema_NewMappingStep name (tableNameOf d) fm rules (BreakOnError d) = Err e →
    Outcome d (returned None None (Some e))
      [call_NewFieldMapper (mappingFieldTypeOf d) (oldStyleMappingsOf d)
         (newStyleMappingOf d);
       call_NewMappingStep name (tableNameOf d) fm rules (BreakOnError d)]
| exit_queue rules fm casts processor e :
    Mode d = BatchMode ∨ Mode d = StreamMode →
    value (enrichmentLoop name (Enrichment d) defaultRules) = Ok rules →
    schema_NewFieldMapper (mappingFieldTypeOf d) (oldStyleMappingsOf d)
      (newStyleMappingOf d) = Ok (fm, casts) →
    schema_NewMappingStep name (tableNameOf d) fm rules (BreakOnError d) = Ok processor →
    queueStage (Mode d) = Err e →
    Outcome d (returned None None (Some e))
      ([call_NewFieldMapper (mappingFieldTypeOf d) (oldStyleMappingsOf d)
          (newStyleMappingOf d);
        call_NewMappingStep name (tableNameOf d) fm rules (BreakOnError d)]
       ++ queueCalls (Mode d))
| exit_type rules fm casts processor eventQueue :
    Mode d = BatchMode ∨ Mode d = StreamMode →
    value (enrichmentLoop name (Enrichment d) defaultRules) = Ok rules →
    schema_NewFieldMapper (mappingFieldTypeOf d) (oldStyleMappingsOf d)
      (newStyleMappingOf d) = Ok (fm, casts) →
    schema_NewMappingStep name (tableNameOf d) fm rules (BreakOnError d) = Ok processor →
    queueStage (Mode d) = Ok eventQueue →
    factoryFor (Type_ d) = None →
    Outcome d (returned None None (Some unknownDestination))
      ([call_NewFieldMapper (mappingFieldTypeOf d) (oldStyleMappingsOf d)
          (newStyleMappingOf d);
        call_NewMappingStep name (tableNameOf d) fm rules (BreakOnError d)]
       ++ queueCalls (Mode d) ++ closeCalls eventQueue)
| exit_created rules fm casts processor eventQueue factoryMethod :
    Mode d = BatchMode ∨ Mode d = StreamMode →
    value (enrichmentLoop name (Enrichment d) defaultRules) = Ok rules →
    schema_NewFieldMapper (mappingFieldTypeOf d) (oldStyleMappingsOf d)
      (newStyleMappingOf d) = Ok (fm, casts) →
    schema_NewMappingStep name (tableNameOf d) fm rules (BreakOnError d) = Ok processor →
    queueStage (Mode d) = Ok eventQueue →
    factoryFor (Type_ d) = Some factoryMethod →
    Outcome d
      (returned (Some (newProxy factoryMethod (storageConfigOf d processor eventQueue casts)))
         eventQueue None)
      ([call_NewFieldMapper (mappingFieldTypeOf d) (oldStyleMappingsOf d)
          (newStyleMappingOf d);
        call_NewMappingStep name (tableNameOf d) fm rules (BreakOnError d)]
       ++ queueCalls (Mode d)
       ++ [call_newProxy factoryMethod (storageConfigOf d processor eventQueue casts)]).

(** An error message describes a failed rule of the configuration when it
    is the message [Create] builds for one of its entries that cannot be
    built. *)
Definition describesFailedRule (d : DestinationConfig) (msg : error) : Prop :=
  ∃ ruleConfig cause,
    ruleConfig ∈ Enrichment d ∧ enrichment_NewRule ruleConfig = Err cause ∧
    msg = ruleError ruleConfig cause.

End Stages.

(** ** Mapping styles *)

Section MappingStyles.
Context `{Externals}.

(** A mapping style counts as configured the way lines 132-148 of [Create]
    decide which one to log. *)
Definition legacyConfigured (oldStyleMappings : list string) : bool :=
  bool_decide (0 < length oldStyleMappings).

Definition structuredConfigured (newStyleMapping : option schema_Mapping) : bool :=
  match newStyleMapping with
  | Some mapping => bool_decide (length (Fields mapping) ≠ 0)
  | None => false
  end.

Definition bothMappingStyles : error :=
  "Both legacy and structured field mapping are configured".

(** Modelled from the spec: [schema.NewFieldMapper] (package [schema]) is
    not part of factory.go.  "Exactly one mapping style is active per
    destination; supplying both is a configuration error raised at
    construction, not at event time."  What the constructor does with one
    style, or with none, including its refusal of a malformed rule, is left
    to [oneStyle]. *)
Definition NewFieldMapper_spec
    (oneStyle : schema_FieldMappingType → list string → option schema_Mapping →
                result (schema_Mapper * gmap string string))
    (mappingType : schema_FieldMappingType) (oldStyleMappings : list string)
    (newStyleMapping : option schema_Mapping) :
    result (schema_Mapper * gmap string string) :=
  if legacyConfigured oldStyleMappings && structuredConfigured newStyleMapping
  then Err bothMappingStyles
  else oneStyle mappingType oldStyleMappings newStyleMapping.

End MappingStyles.

(** The collaborators [E] with the field-mapper constructor of the spec in
    front of their own. *)
Definition withCheckedMapper (E : Externals) : Externals := {|
  context_Context := @context_Context E;
  MonitorKeeper := @MonitorKeeper E;
  caching_EventsCache := @caching_EventsCache E;
  logging_Factory := @logging_Factory E;
  adapters_DataSourceConfig := @adapters_DataSourceConfig E;
  adapters_S3Config := @adapters_S3Config E;
  adapters_GoogleConfig := @adapters_GoogleConfig E;
  adapters_ClickHouseConfig := @adapters_ClickHouseConfig E;
  adapters_SnowflakeConfig := @adapters_SnowflakeConfig E;
  enrichment_RuleConfig := @enrichment_RuleConfig E;
  enrichment_Rule := @enrichment_Rule E;
  RuleConfig_String := @RuleConfig_String E;
  enrichment_DefaultJsIpRule := @enrichment_DefaultJsIpRule E;
  enrichment_DefaultJsUaRule := @enrichment_DefaultJsUaRule E;
  enrichment_NewRule := @enrichment_NewRule E;
  schema_FieldMappingType := @schema_FieldMappingType E;
  FieldMappingType_String := @FieldMappingType_String E;
  schema_Default := @schema_Default E;
  schema_MappingField := @schema_MappingField E;
  MappingField_String := @MappingField_String E;
  schema_Mapping := @schema_Mapping E;
  Fields := @Fields E;
  KeepUnmapped := @KeepUnmapped E;
  schema_Mapper := @schema_Mapper E;
  schema_MappingStep := @schema_MappingStep E;
  schema_NewFieldMapper := @NewFieldMapper_spec E (@schema_NewFieldMapper E);
  schema_NewMappingStep := @schema_NewMappingStep E;
  events_PersistentQueue := @events_PersistentQueue E;
  PersistentQueue_eq_dec := @PersistentQueue_eq_dec E;
  events_NewPersistentQueue := @events_NewPersistentQueue E;
|}.

(** ** A concrete set of collaborators

    Rules, mapping fields and mapping types are strings; the rule
    configuration "broken" cannot be built; a queue is its name and
    directory and cannot be opened without a directory. *)

Module Demo.

Definition NewRule (ruleConfig : string) : result string :=
  if decide (ruleConfig = "broken") then Err "unknown rule" else Ok ruleConfig.

Definition NewPersistentQueue (queueName logEventPath : string) : result (string * string) :=
  if decide (logEventPath = "") then Err "no event log directory"
  else Ok (queueName, logEventPath).

Definition externals : Externals := {|
  context_Context := unit;
  MonitorKeeper := unit;
  caching_EventsCache := unit;
  logging_Factory := unit;
  adapters_DataSourceConfig := unit;
  adapters_S3Config := unit;
  adapters_GoogleConfig := unit;
  adapters_ClickHouseConfig := unit;
  adapters_SnowflakeConfig := unit;
  enrichment_RuleConfig := string;
  enrichment_Rule := string;
  RuleConfig_String := λ c, c;
  enrichment_DefaultJsIpRule := "ip";
  enrichment_DefaultJsUaRule := "ua";
  enrichment_NewRule := NewRule;
  schema_FieldMappingType := string;
  FieldMappingType_String := λ t, t;
  schema_Default := "default";
  schema_MappingField := string;
  MappingField_String := λ f, f;
  schema_Mapping := option bool * list string;
  Fields := snd;
  KeepUnmapped := fst;
  schema_Mapper := list string;
  schema_MappingStep := string;
  schema_NewFieldMapper := λ _ old _, Ok (old, ∅);
  schema_NewMappingStep := λ _ tableName _ _ _, Ok tableName;
  events_PersistentQueue := string * string;
  PersistentQueue_eq_dec := _;
  events_NewPersistentQueue := NewPersistentQueue;
|}.

Definition destinationOf (type mode : string) (layout : option (@DataLayout externals))
    (rules : list string) : @DestinationConfig externals :=
  {| OnlyTokens := []; Type_ := type; Mode := mode; DataLayout_ := layout;
     Enrichment := rules; BreakOnError := false; DataSource := None; S3 := None;
     Google := None; ClickHouse := None; Snowflake := None |}.

Definition run (name logEventPath : string) (d : @DestinationConfig externals) :
    @M externals (@Returned externals) :=
  @Create externals tt name logEventPath d tt tt tt.

(** A destination "mysql" without a type, in stream mode. *)
Definition mysqlStream : @M externals (@Returned externals) :=
  run "mysql" "/var/log/events" (destinationOf "" "stream" None []).

(** Postgres destinations named "pg": with [mode="invalid"], in stream
    mode, and without a mode. *)
Definition invalidMode : @M externals (@Returned externals) :=
  run "pg" "/var/log/events" (destinationOf "postgres" "invalid" None []).

Definition postgresStream : @M externals (@Returned externals) :=
  run "pg" "/var/log/events" (destinationOf "postgres" "stream" None []).

Definition postgresNoMode : @M externals (@Returned externals) :=
  run "pg" "/var/log/events" (destinationOf "postgres" "" None []).

(** A destination named "postgres" with neither type nor mode. *)
Definition namedPostgres : @M externals (@Returned externals) :=
  run "postgres" "/var/log/events" (destinationOf "" "" None []).

(** Postgres destinations whose rule "broken" cannot be built, in batch
    mode and with an invalid mode. *)
Definition brokenRule : @DestinationConfig externals :=
  destinationOf "postgres" "batch" None ["geo"; "broken"; "session"].

Definition brokenRuleInvalidMode : @DestinationConfig externals :=
  destinationOf "postgres" "invalid" None ["broken"].

End Demo.

(** A postgres destination with one legacy rule and one structured field,
    for the collaborators of [Demo] with and without the checking
    constructor. *)
Definition bothStylesLayout (E : Externals)
    (mappingType : @schema_FieldMappingType E) (mapping : @schema_Mapping E) :
    @DataLayout E :=
  {| MappingType := mappingType; Mapping := ["/src -> /dst"];
     Mappings := Some mapping; TableNameTemplate := "";
     PrimaryKeyFields := [] |}.

Definition bothStylesDestination (E : Externals)
    (mappingType : @schema_FieldMappingType E) (mapping : @schema_Mapping E) :
    @DestinationConfig E :=
  {| OnlyTokens := []; Type_ := "postgres"; Mode := "stream";
     DataLayout_ := Some (bothStylesLayout E mappingType mapping); Enrichment := [];
     BreakOnError := false; DataSource := None; S3 := None; Google := None;
     ClickHouse := None; Snowflake := None |}.

(** ** Further readings of a run *)

Section Readings.
Context `{Externals}.

(** The rule configurations handed to [enrichment.NewRule], in call
    order. *)
Definition ruleCalls (t : list Call) : list enrichment_RuleConfig :=
  omap (λ c, match c with call_NewRule ruleConfig => Some ruleConfig | _ => None end) t.

(** The entries the loop of lines 115-124 reaches: all of them up to and
    including the first one that cannot be built. *)
Fixpoint attempted (ruleConfigs : list enrichment_RuleConfig) :
    list enrichment_RuleConfig :=
  match ruleConfigs with
  | [] => []
  | ruleConfig :: rest =>
      ruleConfig :: (if is_err (enrichment_NewRule ruleConfig) then [] else attempted rest)
  end.

(** The constructor and the configuration of every [newProxy] call, in call
    order, with repetitions. *)
Definition proxyCalls (t : list Call) : list (StorageFactory * Config) :=
  omap (λ c, match c with
             | call_newProxy factoryMethod config => Some (factoryMethod, config)
             | _ => None
             end) t.

(** The fields [Create] reads: two configurations that agree on them differ
    in [only_tokens] and in the adapter blocks at most. *)
Definition sameSettings (d1 d2 : DestinationConfig) : Prop :=
  Type_ d1 = Type_ d2 ∧ Mode d1 = Mode d2 ∧ DataLayout_ d1 = DataLayout_ d2 ∧
  Enrichment d1 = Enrichment d2 ∧ BreakOnError d1 = BreakOnError d2.

End Readings.

(** The collaborators [E] with other constructors for the field mapper and
    the mapping step. *)
Definition withSchema (E : Externals)
    (newFieldMapper : @schema_FieldMappingType E → list string → option (@schema_Mapping E) →
                      result (@schema_Mapper E * gmap string string))
    (newMappingStep : string → string → @schema_Mapper E → list (@enrichment_Rule E) →
                      bool → result (@schema_MappingStep E)) : Externals := {|
  context_Context := @context_Context E;
  MonitorKeeper := @MonitorKeeper E;
  caching_EventsCache := @caching_EventsCache E;
  logging_Factory := @logging_Factory E;
  adapters_DataSourceConfig := @adapters_DataSourceConfig E;
  adapters_S3Config := @adapters_S3Config E;
  adapters_GoogleConfig := @adapters_GoogleConfig E;
  adapters_ClickHouseConfig := @adapters_ClickHouseConfig E;
  adapters_SnowflakeConfig := @adapters_SnowflakeConfig E;
  enrichment_RuleConfig := @enrichment_RuleConfig E;
  enrichment_Rule := @enrichment_Rule E;
  RuleConfig_String := @RuleConfig_String E;
  enrichment_DefaultJsIpRule := @enrichment_DefaultJsIpRule E;
  enrichment_DefaultJsUaRule := @enrichment_DefaultJsUaRule E;
  enrichment_NewRule := @enrichment_NewRule E;
  schema_FieldMappingType := @schema_FieldMappingType E;
  FieldMappingType_String := @FieldMappingType_String E;
  schema_Default := @schema_Default E;
  schema_MappingField := @schema_MappingField E;
  MappingField_String := @MappingField_String E;
  schema_Mapping := @schema_Mapping E;
  Fields := @Fields E;
  KeepUnmapped := @KeepUnmapped E;
  schema_Mapper := @schema_Mapper E;
  schema_MappingStep := @schema_MappingStep E;
  schema_NewFieldMapper := newFieldMapper;
  schema_NewMappingStep := newMappingStep;
  events_PersistentQueue := @events_PersistentQueue E;
  PersistentQueue_eq_dec := @PersistentQueue_eq_dec E;
  events_NewPersistentQueue := @events_NewPersistentQueue E;
|}.

(** ** Collaborators that refuse some pipelines

    As [Demo], but the field mapper knows the mapping types "default" and
    "strict" only, and the mapping step refuses a table-name template with
    an unclosed brace. *)

Module Strict.

Definition NewFieldMapper (mappingType : string) (oldStyleMappings : list string)
    (newStyleMapping : option (option bool * list string)) :
    result (list string * gmap string string) :=
  if decide (mappingType = "default" ∨ mappingType = "strict")
  then Ok (oldStyleMappings, ∅)
  else Err ("Unknown field mapping type: " +:+ mappingType).

Definition NewMappingStep (name tableName : string) (fieldMapper : list string)
    (enrichmentRules : list string) (breakOnError : bool) : result string :=
  if decide (tableName = "{{") then Err "Error parsing table name template"
  else Ok tableName.

Definition externals : Externals :=
  withSchema Demo.externals NewFieldMapper NewMappingStep.

Definition layoutOf (mappingType tableNameTemplate : string)
    (primaryKeyFields : list string) : @DataLayout externals :=
  @Build_DataLayout externals mappingType [] None tableNameTemplate primaryKeyFields.

Definition destinationOf (type mode : string) (layout : option (@DataLayout externals))
    (rules : list string) : @DestinationConfig externals :=
  {| OnlyTokens := []; Type_ := type; Mode := mode; DataLayout_ := layout;
     Enrichment := rules; BreakOnError := false; DataSource := None; S3 := None;
     Google := None; ClickHouse := None; Snowflake := None |}.

Definition run (name logEventPath : string) (d : @DestinationConfig externals) :
    @M externals (@Returned externals) :=
  @Create externals tt name logEventPath d tt tt tt.

(** A stream-mode postgres destination with primary keys, one of them
    listed twice, and one rule. *)
Definition keyed : @DestinationConfig externals :=
  destinationOf "postgres" "stream" (Some (layoutOf "default" "" ["id"; "ts"; "id"]))
    ["geo"].

(** Destinations refused by the field mapper and by the mapping step. *)
Definition unknownMapping : @DestinationConfig externals :=
  destinationOf "postgres" "batch" (Some (layoutOf "legacy" "" [])) ["geo"].

Definition unclosedTemplate : @DestinationConfig externals :=
  destinationOf "postgres" "stream" (Some (layoutOf "default" "{{" [])) ["geo"].

(** [keyed] with a token filter and a (void) data source block. *)
Definition keyedWithAdapter : @DestinationConfig externals :=
  {| OnlyTokens := ["token"]; Type_ := "postgres"; Mode := "stream";
     DataLayout_ := Some (layoutOf "default" "" ["id"; "ts"; "id"]);
     Enrichment := ["geo"]; BreakOnError := false; DataSource := Some tt; S3 := None;
     Google := None; ClickHouse := None; Snowflake := None |}.

End Strict.

(** ** Proof tools *)

(** Membership of a call in a short explicit trace. *)
Ltac in_trace H :=
  repeat first
    [ apply elem_of_nil in H; destruct H
    | apply elem_of_cons in H as [H|H]
    | apply elem_of_app in H as [H|H] ];
  try discriminate H.

Ltac find_in_trace :=
  repeat first [apply list_elem_of_here | apply list_elem_of_further].

(** ** The monad's equations and the log-only parts of the trace *)

Section TraceLemmas.
Context `{Externals}.

Lemma value_bind {A B} (m : M A) (k : A → M B) :
  value (bind m k) = value (k (value m)).
Proof. reflexivity. Qed.

Lemma trace_bind {A B} (m : M A) (k : A → M B) :
  trace (bind m k) = trace m ++ trace (k (value m)).
Proof. reflexivity. Qed.

Lemma wiringCalls_app (t1 t2 : list Call) :
  wiringCalls (t1 ++ t2) = wiringCalls t1 ++ wiringCalls t2.
Proof. apply filter_app. Qed.

Lemma elem_of_wiringCalls (c : Call) (t : list Call) :
  c ∈ wiringCalls t ↔ wiring c = true ∧ c ∈ t.
Proof. unfold wiringCalls. rewrite list_elem_of_filter. reflexivity. Qed.

Lemma forRange_wiring {A} (xs : list A) (body : A → M unit) :
  (∀ x, wiringCalls (trace (body x)) = []) →
  wiringCalls (trace (forRange xs body)) = [].
Proof.
  intros Hbody. induction xs as [|x xs IH]; [reflexivity|].
  cbn [forRange]. rewrite trace_bind, wiringCalls_app, Hbody, IH. reflexivity.
Qed.

Lemma enrichmentLoop_wiring (name : string) (ruleConfigs : list enrichment_RuleConfig)
    (acc : list enrichment_Rule) :
  wiringCalls (trace (enrichmentLoop name ruleConfigs acc)) = [].
Proof.
  revert acc. induction ruleConfigs as [|c cs IH]; intros acc; [reflexivity|].
  cbn [enrichmentLoop]. rewrite !trace_bind, !wiringCalls_app.
  destruct (enrichment_NewRule c); [apply IH | reflexivity].
Qed.

(** The queues left open depend on the wiring calls only. *)
Lemma openQueues_wiringCalls (t : list Call) (opened : list events_PersistentQueue) :
  openQueues opened (wiringCalls t) = openQueues opened t.
Proof.
  revert opened. induction t as [|c t IH]; intros opened; [reflexivity|].
  unfold wiringCalls in *. rewrite filter_cons.
  destruct c as [msg|msg|rc|mt old new|n tn fm rs b|qn p [q|e]|q|f cfg];
    case_decide; try done; cbn [openQueues]; apply IH.
Qed.

End TraceLemmas.

(** ** Every run of [Create] is one of the outcomes *)

Section Outcome.
Context `{Externals}.
Variables (ctx : context_Context) (name logEventPath : string)
  (destination : DestinationConfig) (monitorKeeper : MonitorKeeper)
  (eventsCache : caching_EventsCache) (loggerFactory : logging_Factory).

Lemma Create_outcome :
  let run := Create ctx name logEventPath destination monitorKeeper eventsCache
               loggerFactory in
  Outcome ctx name logEventPath monitorKeeper eventsCache loggerFactory
    (withDefaults name destination) (value run) (wiringCalls (trace run)).
Proof.
  cbv zeta. unfold Create.
  set (d := if decide (Mode _ = "") then _ else _).
  assert (Hd : d = withDefaults name destination).
  { unfold d, withDefaults, effectiveMode, effectiveType.
    destruct destination; cbn. repeat case_decide; cbn in *; try reflexivity; done. }
  clearbody d. subst d. set (d := withDefaults name destination).
  match goal with
  | |- context [match ?l with pair _ _ => _ end] =>
      match type of l with
      | (_ * gmap string bool)%type =>
          replace l with (mappingFieldTypeOf d, oldStyleMappingsOf d, newStyleMappingOf d,
                          templateOf d, pkFieldsOf d)
      end
  end.
  2:{ unfold mappingFieldTypeOf, oldStyleMappingsOf, newStyleMappingOf, templateOf,
        pkFieldsOf.
      destruct (DataLayout_ d) as [dl|]; [|reflexivity].
      case_decide as Ht; [reflexivity|].
      rewrite Ht. reflexivity. }
  cbv beta iota.
  set (tbl := if decide (templateOf d = "") then _ else _).
  assert (Htv : value tbl = tableNameOf d).
  { unfold tbl, tableNameOf. case_decide; reflexivity. }
  assert (Htt : wiringCalls (trace tbl) = []).
  { unfold tbl. case_decide; reflexivity. }
  clearbody tbl.
  rewrite !value_bind, !trace_bind, !wiringCalls_app, Htv, Htt.
  change (wiringCalls (trace (call (logging_Infof ?m)))) with (@nil Call).
  cbn [app].
  destruct (decide (Mode d ≠ BatchMode ∧ Mode d ≠ StreamMode)) as [[Hb Hs]|Hmode].
  { apply exit_mode; assumption. }
  assert (Hvalid : Mode d = BatchMode ∨ Mode d = StreamMode).
  { destruct (decide (Mode d = BatchMode)); [by left|].
    destruct (decide (Mode d = StreamMode)); [by right|]. by destruct Hmode. }
  clear Hmode.
  rewrite !value_bind, !trace_bind, !wiringCalls_app, enrichmentLoop_wiring.
  match goal with
  | |- context [wiringCalls (trace (if ?c then _ else _))] =>
      replace (wiringCalls (trace (if c then call (logging_Warnf _) else _)))
        with (@nil Call) by (destruct c; reflexivity)
  end.
  cbn [app].
  destruct (value (enrichmentLoop _ _ _)) as [rules|e] eqn:Hloop.
  2:{ eapply exit_rule; eassumption. }
  rewrite !value_bind, !trace_bind, !wiringCalls_app.
  destruct (schema_NewFieldMapper _ _ _) as [[fm casts]|e] eqn:Hfm.
  2:{ eapply exit_mapper; eassumption. }
  rewrite !value_bind, !trace_bind, !wiringCalls_app.
  match goal with
  | |- context [wiringCalls (trace ?logs) ++ wiringCalls (trace (call (call_NewMappingStep _ _ _ _ _))) ++ _] =>
      replace (wiringCalls (trace logs)) with (@nil Call)
  end.
  2:{ destruct (newStyleMappingOf d); repeat case_decide;
      rewrite ?trace_bind, ?wiringCalls_app, ?forRange_wiring by reflexivity;
      reflexivity. }
  change (wiringCalls (trace (call ?c))) with [c].
  cbn [app].
  destruct (schema_NewMappingStep _ _ _ _ _) as [processor|e] eqn:Hstep.
  2:{ eapply exit_step; eassumption. }
  rewrite !value_bind, !trace_bind, !wiringCalls_app.
  match goal with
  | |- context [match value ?m with Ok _ => _ | Err _ => _ end] => set (qs := m)
  end.
  assert (Hqv : value qs = queueStage name logEventPath (Mode d)).
  { unfold qs, queueStage, queueName. case_decide; [|reflexivity].
    rewrite value_bind. destruct (events_NewPersistentQueue _ _); reflexivity. }
  assert (Hqt : wiringCalls (trace qs) = queueCalls name logEventPath (Mode d)).
  { unfold qs, queueCalls, queueName. case_decide; [|reflexivity].
    rewrite trace_bind, wiringCalls_app.
    destruct (events_NewPersistentQueue _ _); reflexivity. }
  clearbody qs. rewrite Hqv, Hqt.
  destruct (queueStage name logEventPath (Mode d)) as [eventQueue|e] eqn:Hstage.
  2:{ rewrite app_nil_r. eapply exit_queue; eassumption. }
  destruct (factoryFor (Type_ d)) as [f|] eqn:Hf; pose proof Hf as Hsw;
    unfold factoryFor in Hsw;
    repeat match goal with
      | |- context [decide (Type_ d = ?t)] => destruct (decide (Type_ d = t))
      end;
    try discriminate Hsw; try (injection Hsw as Hsw; rewrite <- Hsw in * );
    rewrite ?value_bind, ?trace_bind, ?wiringCalls_app;
    change (wiringCalls (trace (call (call_newProxy ?f ?c)))) with [call_newProxy f c];
    change (wiringCalls (trace (ret ?x))) with (@nil Call);
    change (value (ret ?x)) with x.
  1-6: eapply exit_created; eassumption.
  replace (wiringCalls (trace match eventQueue with Some q => _ | None => _ end))
    with (closeCalls eventQueue) by (destruct eventQueue; reflexivity).
  rewrite app_nil_r.
  eapply exit_type; eassumption.
Qed.

End Outcome.

(** ** Facts about the stages *)

Section StageLemmas.
Context `{Externals}.

(** The loop succeeds exactly when every configured rule can be built, and
    then appends the built rules in configuration order. *)
Lemma enrichmentLoop_Ok (name : string) (ruleConfigs : list enrichment_RuleConfig)
    (acc rules : list enrichment_Rule) :
  value (enrichmentLoop name ruleConfigs acc) = Ok rules ↔
  ∃ configured,
    Forall2 (λ c r, enrichment_NewRule c = Ok r) ruleConfigs configured ∧
    rules = acc ++ configured.
Proof.
  revert acc. induction ruleConfigs as [|c cs IH]; intros acc.
  - cbn. split.
    + intros [= <-]. exists []. split; [constructor | by rewrite app_nil_r].
    + intros (configured & Hall & ->). inversion Hall. by rewrite app_nil_r.
  - cbn [enrichmentLoop]. rewrite !value_bind.
    destruct (enrichment_NewRule c) as [r|e] eqn:Hc.
    + rewrite IH. split.
      * intros (configured & Hall & ->). exists (r :: configured).
        split; [by constructor | by rewrite <- app_assoc].
      * intros (configured & Hall & ->).
        inversion Hall as [|? r' ? configured' Hr Hrest]; subst.
        rewrite Hc in Hr. injection Hr as <-. exists configured'.
        split; [done | by rewrite <- app_assoc].
    + split; [discriminate|].
      intros (configured & Hall & _). inversion Hall; congruence.
Qed.

(** It fails exactly at the first rule that cannot be built, with an error
    that names this rule and carries the cause. *)
Lemma enrichmentLoop_Err (name : string) (ruleConfigs : list enrichment_RuleConfig)
    (acc : list enrichment_Rule) (e : error) :
  value (enrichmentLoop name ruleConfigs acc) = Err e ↔
  ∃ before c after cause,
    ruleConfigs = before ++ c :: after ∧
    Forall (λ c', is_err (enrichment_NewRule c') = false) before ∧
    enrichment_NewRule c = Err cause ∧
    e = ruleError c cause.
Proof.
  revert acc. induction ruleConfigs as [|c cs IH]; intros acc.
  - cbn. split; [discriminate|].
    intros (before & c & after & cause & Heq & _). by destruct before.
  - cbn [enrichmentLoop]. rewrite !value_bind.
    destruct (enrichment_NewRule c) as [r|cause] eqn:Hc.
    + rewrite IH. split.
      * intros (before & c' & after & cause & -> & Hb & Hc' & ->).
        exists (c :: before), c', after, cause. repeat split; try done.
        constructor; [by rewrite Hc | done].
      * intros (before & c' & after & cause & Heq & Hb & Hc' & ->).
        destruct before as [|b before]; cbn in Heq; injection Heq as -> ->.
        { congruence. }
        exists before, c', after, cause. repeat split; try done.
        by inversion Hb.
    + split.
      * intros [= <-]. exists [], c, cs, cause. repeat split; [constructor | done].
      * intros (before & c' & after & cause' & Heq & Hb & Hc' & ->).
        destruct before as [|b before]; cbn in Heq; injection Heq as -> ->.
        { rewrite Hc in Hc'. by injection Hc' as <-. }
        inversion Hb as [|? ? Hbad]; subst. by rewrite Hc in Hbad.
Qed.

Lemma enrichmentLoop_fails_on_bad_rule (name : string)
    (ruleConfigs : list enrichment_RuleConfig) (acc : list enrichment_Rule)
    (c : enrichment_RuleConfig) :
  c ∈ ruleConfigs → is_err (enrichment_NewRule c) = true →
  ∃ e, value (enrichmentLoop name ruleConfigs acc) = Err e.
Proof.
  intros Hin Hbad.
  destruct (value (enrichmentLoop name ruleConfigs acc)) as [rules|e] eqn:Hloop;
    [|by exists e].
  apply enrichmentLoop_Ok in Hloop as (configured & Hall & _).
  apply list_elem_of_lookup in Hin as [i Hi].
  destruct (Forall2_lookup_l _ _ _ _ _ Hall Hi) as (r & _ & Hr).
  by rewrite Hr in Hbad.
Qed.

Lemma factoryFor_Some (type : string) (f : StorageFactory) :
  factoryFor type = Some f → type ∈ recognizedTypes.
Proof.
  unfold factoryFor, recognizedTypes. intros Hf.
  repeat (case_decide; [subst type; set_solver|]). discriminate Hf.
Qed.

Lemma factoryFor_None (type : string) :
  factoryFor type = None → type ∉ recognizedTypes.
Proof.
  intros Hnone Hin. unfold recognizedTypes in Hin.
  repeat (apply elem_of_cons in Hin as [->|Hin]; [discriminate Hnone|]).
  by apply elem_of_nil in Hin.
Qed.

Lemma queueStage_Ok (name logEventPath mode : string)
    (eventQueue : option events_PersistentQueue) :
  queueStage name logEventPath mode = Ok eventQueue →
  (mode ≠ StreamMode ∧ eventQueue = None ∧ queueCalls name logEventPath mode = []) ∨
  (mode = StreamMode ∧ ∃ q, eventQueue = Some q ∧
     queueCalls name logEventPath mode =
       [call_NewPersistentQueue (queueName name) logEventPath (Ok q)]).
Proof.
  unfold queueStage, queueCalls. case_decide as Hm.
  - destruct (events_NewPersistentQueue _ _) as [q|e]; [|discriminate].
    intros [= <-]. right. eauto.
  - intros [= <-]. by left.
Qed.

Lemma queueStage_Err (name logEventPath mode : string) (e : error) :
  queueStage name logEventPath mode = Err e →
  mode = StreamMode ∧
  queueCalls name logEventPath mode =
    [call_NewPersistentQueue (queueName name) logEventPath (Err e)].
Proof.
  unfold queueStage, queueCalls. case_decide as Hm; [|discriminate].
  destruct (events_NewPersistentQueue _ _) as [q|e']; [discriminate|].
  by intros [= <-].
Qed.

(** [strings.Contains] finds a string placed between any two others. *)
Lemma HasPrefix_app (p rest : string) : HasPrefix (p +:+ rest) p = true.
Proof.
  induction p as [|c p IH]; [by destruct rest|].
  change (String c p +:+ rest) with (String c (p +:+ rest)).
  cbn [HasPrefix]. by rewrite Ascii.eqb_refl.
Qed.

Lemma Contains_app (before s after : string) :
  Contains (before +:+ s +:+ after) s = true.
Proof.
  induction before as [|c before IH].
  - change ("" +:+ s +:+ after) with (s +:+ after).
    destruct (s +:+ after) eqn:E; cbn [Contains]; rewrite <- E, HasPrefix_app; reflexivity.
  - change (String c before +:+ s +:+ after) with (String c (before +:+ s +:+ after)).
    cbn [Contains]. rewrite IH. by destruct (HasPrefix _ _).
Qed.

End StageLemmas.

(** ** Three runs *)

(** An unknown type in stream mode: the queue is opened after the mapping
    step was built, and closed again. *)
Example mysqlStream_trace :
  trace Demo.mysqlStream =
  [ @logging_Infof Demo.externals
      "[mysql] Initializing destination of type: mysql in mode: stream";
    logging_Infof "[mysql] uses default table name: events";
    logging_Warnf "[mysql] doesn't have enrichment rules";
    @call_NewFieldMapper Demo.externals "default" [] None;
    logging_Warnf "[mysql] doesn't have mapping rules";
    @call_NewMappingStep Demo.externals "mysql" "events" [] ["ip"; "ua"] false;
    @call_NewPersistentQueue Demo.externals "queue.dst=mysql" "/var/log/events"
      (Ok ("queue.dst=mysql", "/var/log/events"));
    @call_Close Demo.externals ("queue.dst=mysql", "/var/log/events") ].
Proof. vm_compute. reflexivity. Qed.

(** An invalid mode: nothing but the two first log lines. *)
Example invalidMode_run :
  Demo.invalidMode =
  (@returned Demo.externals None None
     (Some "Unknown destination mode: invalid. Available mode: [batch, stream]"),
   [ @logging_Infof Demo.externals
       "[pg] Initializing destination of type: postgres in mode: invalid";
     logging_Infof "[pg] uses default table name: events" ]).
Proof. vm_compute. reflexivity. Qed.

(** A postgres destination in stream mode is created with its queue. *)
Example postgresStream_returned :
  err (value Demo.postgresStream) = None ∧
  queue (value Demo.postgresStream) = Some ("queue.dst=pg", "/var/log/events") ∧
  factoryMethod <$> storageProxy (value Demo.postgresStream) = Some NewPostgres.
Proof. vm_compute. repeat split. Qed.

(** ** Error exits *)

Section ErrorExits.
Context `{Externals}.
Variables (ctx : context_Context) (name logEventPath : string)
  (destination : DestinationConfig) (monitorKeeper : MonitorKeeper)
  (eventsCache : caching_EventsCache) (loggerFactory : logging_Factory).

Local Abbreviation created :=
  (Create ctx name logEventPath destination monitorKeeper eventsCache loggerFactory).

(** C10: whenever [Create] returns a non-nil error, the returned proxy and
    the returned queue are both nil, and the calls [Create] made leave no
    queue open: a queue it opened has been closed again. *)
Theorem Create_error_returns_nothing :
  err (value created) ≠ None →
  storageProxy (value created) = None ∧ queue (value created) = None ∧
  openQueues [] (trace created) = [].
Proof.
  intros Herr. set (run := created) in *.
  pose proof (Create_outcome ctx name logEventPath destination monitorKeeper
                eventsCache loggerFactory) as Hout.
  cbv zeta in Hout. fold run in Hout. clearbody run.
  rewrite <- openQueues_wiringCalls.
  generalize dependent (withDefaults name destination). intros d.
  generalize dependent (wiringCalls (trace run)).
  generalize dependent (value run). intros v Herr t Hout.
  destruct Hout as
    [ Hb Hs
    | e Hm Hloop
    | rules e Hm Hloop Hfm
    | rules fm casts e Hm Hloop Hfm Hstep
    | rules fm casts processor e Hm Hloop Hfm Hstep Hq
    | rules fm casts processor q Hm Hloop Hfm Hstep Hq Hf
    | rules fm casts processor q f Hm Hloop Hfm Hstep Hq Hf ];
    cbn [storageProxy queue err] in *; try done.
  - apply queueStage_Err in Hq as [_ ->]. done.
  - apply queueStage_Ok in Hq as [(_ & -> & ->)|(_ & q' & -> & ->)]; [done|].
    repeat split. cbn [app openQueues closeCalls]. rewrite filter_cons. case_decide; done.
Qed.

End ErrorExits.

(** The witness of [Create_error_returns_nothing]: a stream-mode destination
    of the unknown type "mysql". *)
Lemma Create_error_returns_nothing_witness :
  err (value Demo.mysqlStream) = Some unknownDestination ∧
  storageProxy (value Demo.mysqlStream) = None ∧ queue (value Demo.mysqlStream) = None ∧
  openQueues [] (trace Demo.mysqlStream) = [].
Proof.
  split; [vm_compute; reflexivity|].
  apply (@Create_error_returns_nothing Demo.externals tt "mysql" "/var/log/events"
           (Demo.destinationOf "" "stream" None []) tt tt tt).
  vm_compute. discriminate.
Defined.

Section UnknownType.
Context `{Externals}.
Variables (ctx : context_Context) (name logEventPath : string)
  (destination : DestinationConfig) (monitorKeeper : MonitorKeeper)
  (eventsCache : caching_EventsCache) (loggerFactory : logging_Factory).

Local Abbreviation created :=
  (Create ctx name logEventPath destination monitorKeeper eventsCache loggerFactory).

(** C1: for every destination whose type (the destination name when the
    type field is empty) is none of redshift, bigquery, postgres,
    clickhouse, s3 and snowflake, [Create] returns an error and neither a
    proxy nor a queue; a queue that [Create] opened is closed by [Create],
    and the calls made leave no queue open. *)
Theorem Create_unknown_type_closes_queue :
  effectiveType name destination ∉ recognizedTypes →
  err (value created) ≠ None ∧
  storageProxy (value created) = None ∧ queue (value created) = None ∧
  (∀ queueName path q,
     call_NewPersistentQueue queueName path (Ok q) ∈ trace created →
     call_Close q ∈ trace created) ∧
  openQueues [] (trace created) = [].
Proof.
  intros Htype. set (run := created) in *.
  pose proof (Create_outcome ctx name logEventPath destination monitorKeeper
                eventsCache loggerFactory) as Hout.
  cbv zeta in Hout. fold run in Hout. clearbody run.
  rewrite <- openQueues_wiringCalls.
  cut (err (value run) ≠ None ∧
       storageProxy (value run) = None ∧ queue (value run) = None ∧
       (∀ queueName path q,
          call_NewPersistentQueue queueName path (Ok q) ∈ wiringCalls (trace run) →
          call_Close q ∈ wiringCalls (trace run)) ∧
       openQueues [] (wiringCalls (trace run)) = []).
  { intros (? & ? & ? & Hclose & ?). repeat split; try done.
    intros qn p q Hin. eapply elem_of_wiringCalls, Hclose.
    apply elem_of_wiringCalls. by split. }
  change (effectiveType name destination) with (Type_ (withDefaults name destination))
    in Htype.
  generalize dependent (withDefaults name destination). intros d Htype.
  generalize dependent (wiringCalls (trace run)).
  generalize dependent (value run). intros v t Hout.
  destruct Hout as
    [ Hb Hs
    | e Hm Hloop
    | rules e Hm Hloop Hfm
    | rules fm casts e Hm Hloop Hfm Hstep
    | rules fm casts processor e Hm Hloop Hfm Hstep Hq
    | rules fm casts processor q Hm Hloop Hfm Hstep Hq Hf
    | rules fm casts processor q f Hm Hloop Hfm Hstep Hq Hf ];
    cbn [storageProxy queue err].
  1-4: repeat split; try done; intros qn p q Hin; in_trace Hin.
  - apply queueStage_Err in Hq as [_ ->]. repeat split; try done.
    intros qn p q Hin. in_trace Hin.
  - apply queueStage_Ok in Hq as [(_ & -> & ->)|(_ & q' & -> & ->)].
    + repeat split; try done. intros qn p q Hin. in_trace Hin.
    + repeat split; try done.
      * intros qn p q Hin. cbn [app closeCalls] in *. in_trace Hin.
        injection Hin as _ _ ->. find_in_trace.
      * cbn [app openQueues closeCalls]. rewrite filter_cons. case_decide; done.
  - by apply factoryFor_Some in Hf.
Qed.

End UnknownType.

(** The witness of [Create_unknown_type_closes_queue]: the destination
    "mysql" without a type, in stream mode; its queue is opened and
    closed. *)
Lemma Create_unknown_type_closes_queue_witness :
  @call_NewPersistentQueue Demo.externals "queue.dst=mysql" "/var/log/events"
    (Ok ("queue.dst=mysql", "/var/log/events")) ∈ trace Demo.mysqlStream ∧
  err (value Demo.mysqlStream) ≠ None ∧
  storageProxy (value Demo.mysqlStream) = None ∧ queue (value Demo.mysqlStream) = None ∧
  (∀ queueName path q,
     call_NewPersistentQueue queueName path (Ok q) ∈ trace Demo.mysqlStream →
     call_Close q ∈ trace Demo.mysqlStream) ∧
  openQueues [] (trace Demo.mysqlStream) = [].
Proof.
  split.
  - vm_compute. find_in_trace.
  - apply (@Create_unknown_type_closes_queue Demo.externals tt "mysql" "/var/log/events"
             (Demo.destinationOf "" "stream" None []) tt tt tt).
    vm_compute. intros Hin. in_trace Hin.
Defined.

(** ** Mode validation and the queue *)

Section ModeAndQueue.
Context `{Externals}.
Variables (ctx : context_Context) (name logEventPath : string)
  (destination : DestinationConfig) (monitorKeeper : MonitorKeeper)
  (eventsCache : caching_EventsCache) (loggerFactory : logging_Factory).

Local Abbreviation created :=
  (Create ctx name logEventPath destination monitorKeeper eventsCache loggerFactory).

Lemma Contains_skip (before t s : string) :
  Contains t s = true → Contains (before +:+ t) s = true.
Proof.
  intros Ht. induction before as [|c before IH]; [done|].
  change (String c before +:+ t) with (String c (before +:+ t)).
  cbn [Contains]. rewrite IH. by destruct (HasPrefix _ _).
Qed.

Lemma modeError_names_modes (mode : string) :
  Contains (modeError mode) BatchMode = true ∧
  Contains (modeError mode) StreamMode = true.
Proof.
  unfold modeError. split.
  - do 3 apply Contains_skip. apply (Contains_app "").
  - do 5 apply Contains_skip. apply (Contains_app "").
Qed.

(** C3: when the mode, after defaulting, is neither "batch" nor "stream",
    [Create] returns an error whose message contains both mode names; it
    returns neither a proxy nor a queue, and builds no pipeline, queue or
    proxy on the way. *)
Theorem Create_invalid_mode :
  effectiveMode destination ≠ BatchMode →
  effectiveMode destination ≠ StreamMode →
  ∃ msg,
    err (value created) = Some msg ∧
    Contains msg "batch" = true ∧ Contains msg "stream" = true ∧
    storageProxy (value created) = None ∧ queue (value created) = None ∧
    wiringCalls (trace created) = [].
Proof.
  intros Hnb Hns. set (run := created) in *.
  pose proof (Create_outcome ctx name logEventPath destination monitorKeeper
                eventsCache loggerFactory) as Hout.
  cbv zeta in Hout. fold run in Hout. clearbody run.
  change (effectiveMode destination) with (Mode (withDefaults name destination)) in *.
  generalize dependent (withDefaults name destination). intros d Hnb Hns.
  generalize dependent (wiringCalls (trace run)).
  generalize dependent (value run). intros v t Hout.
  destruct Hout as [ Hb Hs | e [Hm|Hm] | ? e [Hm|Hm] | ? ? ? e [Hm|Hm] | ? ? ? ? e [Hm|Hm]
                   | ? ? ? ? ? [Hm|Hm] | ? ? ? ? ? ? [Hm|Hm] ]; try done.
  exists (modeError (Mode d)).
  destruct (modeError_names_modes (Mode d)) as [Hbatch Hstream].
  by repeat split.
Qed.

(** C4: a queue is constructed only in stream mode.  A call to
    [events.NewPersistentQueue] happens only when the mode, after
    defaulting, is "stream", so never in batch mode; and when [Create]
    succeeds the returned queue is non-nil exactly in stream mode, and is
    then the queue that call returned. *)
Theorem Create_queue_iff_stream :
  (err (value created) = None →
     (queue (value created) ≠ None ↔ effectiveMode destination = StreamMode)) ∧
  (err (value created) = None → ∀ q, queue (value created) = Some q →
     call_NewPersistentQueue ("queue.dst=" +:+ name) logEventPath (Ok q) ∈ trace created) ∧
  (∀ queueName path r,
     call_NewPersistentQueue queueName path r ∈ trace created →
     effectiveMode destination = StreamMode) ∧
  (effectiveMode destination = BatchMode →
     ∀ queueName path r, call_NewPersistentQueue queueName path r ∉ trace created).
Proof.
  set (run := created) in *.
  cut ((err (value run) = None →
          (queue (value run) ≠ None ↔ effectiveMode destination = StreamMode)) ∧
       (err (value run) = None → ∀ q, queue (value run) = Some q →
          call_NewPersistentQueue ("queue.dst=" +:+ name) logEventPath (Ok q)
            ∈ wiringCalls (trace run)) ∧
       (∀ queueName path r,
          call_NewPersistentQueue queueName path r ∈ wiringCalls (trace run) →
          effectiveMode destination = StreamMode)).
  { intros (Hiff & Hret & Honly). repeat split.
    - by apply Hiff.
    - by apply Hiff.
    - intros Herr q Hq. by eapply elem_of_wiringCalls, Hret.
    - intros qn p r Hin. eapply (Honly qn p r), elem_of_wiringCalls. by split.
    - intros Hbatch qn p r Hin.
      assert (effectiveMode destination = StreamMode) as Hstream.
      { eapply (Honly qn p r), elem_of_wiringCalls. by split. }
      rewrite Hbatch in Hstream. discriminate Hstream. }
  pose proof (Create_outcome ctx name logEventPath destination monitorKeeper
                eventsCache loggerFactory) as Hout.
  cbv zeta in Hout. fold run in Hout. clearbody run.
  change (effectiveMode destination) with (Mode (withDefaults name destination)) in *.
  generalize dependent (withDefaults name destination). intros d.
  generalize dependent (wiringCalls (trace run)).
  generalize dependent (value run). intros v t Hout.
  destruct Hout as
    [ Hb Hs
    | e Hm Hloop
    | rules e Hm Hloop Hfm
    | rules fm casts e Hm Hloop Hfm Hstep
    | rules fm casts processor e Hm Hloop Hfm Hstep Hq
    | rules fm casts processor q Hm Hloop Hfm Hstep Hq Hf
    | rules fm casts processor q f Hm Hloop Hfm Hstep Hq Hf ];
    cbn [storageProxy queue err].
  1-4: repeat split; try done; intros qn p r Hin; in_trace Hin.
  - apply queueStage_Err in Hq as [Hstream ->]. repeat split; try done.
  - apply queueStage_Ok in Hq as [(Hmode & -> & ->)|(Hmode & q' & -> & ->)];
      repeat split; try done.
    intros qn p r Hin. cbn [app] in Hin. in_trace Hin.
  - apply queueStage_Ok in Hq as [(Hmode & -> & ->)|(Hmode & q' & -> & ->)];
      repeat split; try done.
    + cbn [app]. intros qn p r Hin. in_trace Hin.
    + intros _ q [= <-]. cbn [app]. find_in_trace.
Qed.

End ModeAndQueue.

(** The witness of [Create_invalid_mode]: a postgres destination with
    [mode="invalid"]. *)
Lemma Create_invalid_mode_witness :
  ∃ msg,
    err (value Demo.invalidMode) = Some msg ∧
    Contains msg "batch" = true ∧ Contains msg "stream" = true ∧
    storageProxy (value Demo.invalidMode) = None ∧ queue (value Demo.invalidMode) = None ∧
    wiringCalls (trace Demo.invalidMode) = [].
Proof.
  apply (@Create_invalid_mode Demo.externals tt "pg" "/var/log/events"
           (Demo.destinationOf "postgres" "invalid" None []) tt tt tt);
    vm_compute; discriminate.
Defined.

(** The witness of [Create_queue_iff_stream]: one postgres destination in
    stream mode, which gets its queue, and one in batch mode, which gets
    none. *)
Lemma Create_queue_iff_stream_witness :
  queue (value Demo.postgresStream) = Some ("queue.dst=pg", "/var/log/events") ∧
  queue (value Demo.postgresNoMode) = None ∧
  ∀ queueName path r,
    call_NewPersistentQueue queueName path r ∉ trace Demo.postgresNoMode.
Proof.
  split; [vm_compute; reflexivity|]. split; [vm_compute; reflexivity|].
  apply (@Create_queue_iff_stream Demo.externals tt "pg" "/var/log/events"
           (Demo.destinationOf "postgres" "" None []) tt tt tt).
  vm_compute. reflexivity.
Defined.

(** ** What the pipeline is built from *)

Section Pipeline.
Context `{Externals}.

(** Every call to [schema.NewMappingStep] made by [Create] has the resolved
    table name and the rules the loop built. *)
Lemma Create_NewMappingStep_call (ctx : context_Context) (name logEventPath : string)
    (destination : DestinationConfig) (monitorKeeper : MonitorKeeper)
    (eventsCache : caching_EventsCache) (loggerFactory : logging_Factory)
    (name' tableName : string) (fieldMapper : schema_Mapper)
    (enrichmentRules : list enrichment_Rule) (breakOnError : bool) :
  call_NewMappingStep name' tableName fieldMapper enrichmentRules breakOnError
    ∈ trace (Create ctx name logEventPath destination monitorKeeper eventsCache
               loggerFactory) →
  name' = name ∧ tableName = tableNameOf destination ∧
  breakOnError = BreakOnError destination ∧
  value (enrichmentLoop name (Enrichment destination) defaultRules) = Ok enrichmentRules.
Proof.
  intros Hin.
  assert (Hw : call_NewMappingStep name' tableName fieldMapper enrichmentRules breakOnError
                 ∈ wiringCalls (trace (Create ctx name logEventPath destination
                                         monitorKeeper eventsCache loggerFactory))).
  { apply elem_of_wiringCalls. by split. }
  clear Hin.
  pose proof (Create_outcome ctx name logEventPath destination monitorKeeper
                eventsCache loggerFactory) as Hout.
  cbv zeta in Hout.
  change (tableNameOf destination) with (tableNameOf (withDefaults name destination)).
  change (BreakOnError destination) with (BreakOnError (withDefaults name destination)).
  change (Enrichment destination) with (Enrichment (withDefaults name destination)).
  generalize dependent (withDefaults name destination). intros d.
  generalize dependent (wiringCalls (trace (Create ctx name logEventPath destination
                                              monitorKeeper eventsCache loggerFactory))).
  generalize dependent (value (Create ctx name logEventPath destination
                                 monitorKeeper eventsCache loggerFactory)).
  intros v t Hw Hout.
  destruct Hout as
    [ Hb Hs
    | e Hm Hloop
    | rules e Hm Hloop Hfm
    | rules fm casts e Hm Hloop Hfm Hstep
    | rules fm casts processor e Hm Hloop Hfm Hstep Hq
    | rules fm casts processor q Hm Hloop Hfm Hstep Hq Hf
    | rules fm casts processor q f Hm Hloop Hfm Hstep Hq Hf ].
  1-3: in_trace Hw.
  - in_trace Hw. by injection Hw as -> -> -> -> ->.
  - unfold queueCalls in Hw. case_decide; cbn [app] in Hw; in_trace Hw;
      by injection Hw as -> -> -> -> ->.
  - unfold queueCalls in Hw. case_decide; destruct q; cbn [app closeCalls] in Hw;
      in_trace Hw; by injection Hw as -> -> -> -> ->.
  - unfold queueCalls in Hw. case_decide; cbn [app] in Hw;
      in_trace Hw; by injection Hw as -> -> -> -> ->.
Qed.

(** The mapping step is built whenever the mode is valid and the rules and
    the field mapper could be built. *)
Lemma Create_builds_mapping_step (ctx : context_Context) (name logEventPath : string)
    (destination : DestinationConfig) (monitorKeeper : MonitorKeeper)
    (eventsCache : caching_EventsCache) (loggerFactory : logging_Factory)
    (rules : list enrichment_Rule) (fm : schema_Mapper) (casts : gmap string string) :
  effectiveMode destination = BatchMode ∨ effectiveMode destination = StreamMode →
  value (enrichmentLoop name (Enrichment destination) defaultRules) = Ok rules →
  schema_NewFieldMapper (mappingFieldTypeOf destination) (oldStyleMappingsOf destination)
    (newStyleMappingOf destination) = Ok (fm, casts) →
  call_NewMappingStep name (tableNameOf destination) fm rules (BreakOnError destination)
    ∈ trace (Create ctx name logEventPath destination monitorKeeper eventsCache
               loggerFactory).
Proof.
  intros Hmode Hrules Hmapper.
  enough (Hw : call_NewMappingStep name (tableNameOf destination) fm rules
                 (BreakOnError destination)
               ∈ wiringCalls (trace (Create ctx name logEventPath destination
                                       monitorKeeper eventsCache loggerFactory)))
    by (by apply elem_of_wiringCalls in Hw as [_ ?]).
  pose proof (Create_outcome ctx name logEventPath destination monitorKeeper
                eventsCache loggerFactory) as Hout.
  cbv zeta in Hout.
  change (effectiveMode destination) with (Mode (withDefaults name destination)) in Hmode.
  change (tableNameOf destination) with (tableNameOf (withDefaults name destination)).
  change (BreakOnError destination) with (BreakOnError (withDefaults name destination)).
  change (Enrichment destination) with (Enrichment (withDefaults name destination))
    in Hrules.
  change (mappingFieldTypeOf destination)
    with (mappingFieldTypeOf (withDefaults name destination)) in Hmapper.
  change (oldStyleMappingsOf destination)
    with (oldStyleMappingsOf (withDefaults name destination)) in Hmapper.
  change (newStyleMappingOf destination)
    with (newStyleMappingOf (withDefaults name destination)) in Hmapper.
  revert Hout Hmode Hrules Hmapper.
  generalize (withDefaults name destination) as d.
  generalize (wiringCalls (trace (Create ctx name logEventPath destination
                                    monitorKeeper eventsCache loggerFactory))) as t.
  generalize (value (Create ctx name logEventPath destination
                       monitorKeeper eventsCache loggerFactory)) as v.
  intros v t d Hout Hmode Hrules Hmapper.
  destruct Hout as
    [ Hb Hs
    | e Hm Hloop
    | rules' e Hm Hloop Hfm
    | rules' fm' casts' e Hm Hloop Hfm Hstep
    | rules' fm' casts' processor e Hm Hloop Hfm Hstep Hq
    | rules' fm' casts' processor q Hm Hloop Hfm Hstep Hq Hf
    | rules' fm' casts' processor q f Hm Hloop Hfm Hstep Hq Hf ].
  - by destruct Hmode.
  - congruence.
  - congruence.
  - assert (rules' = rules) as -> by congruence.
    assert (fm' = fm) as -> by congruence. find_in_trace.
  - assert (rules' = rules) as -> by congruence.
    assert (fm' = fm) as -> by congruence. find_in_trace.
  - assert (rules' = rules) as -> by congruence.
    assert (fm' = fm) as -> by congruence. find_in_trace.
  - assert (rules' = rules) as -> by congruence.
    assert (fm' = fm) as -> by congruence. find_in_trace.
Qed.

(** C5: the table name handed to the mapping step is never empty; without
    a [data_layout], or with an empty table-name template, it is the
    default "events", and otherwise it is the template. *)
Theorem Create_table_name_never_empty (ctx : context_Context) (name logEventPath : string)
    (destination : DestinationConfig) (monitorKeeper : MonitorKeeper)
    (eventsCache : caching_EventsCache) (loggerFactory : logging_Factory)
    (name' tableName : string) (fieldMapper : schema_Mapper)
    (enrichmentRules : list enrichment_Rule) (breakOnError : bool) :
  call_NewMappingStep name' tableName fieldMapper enrichmentRules breakOnError
    ∈ trace (Create ctx name logEventPath destination monitorKeeper eventsCache
               loggerFactory) →
  tableName ≠ "" ∧
  (DataLayout_ destination = None → tableName = "events") ∧
  (∀ dataLayout, DataLayout_ destination = Some dataLayout →
     tableName = if decide (TableNameTemplate dataLayout = "")
                 then "events" else TableNameTemplate dataLayout).
Proof.
  intros Hin. apply Create_NewMappingStep_call in Hin as (_ & -> & _ & _).
  unfold tableNameOf, templateOf. destruct (DataLayout_ destination) as [dl|].
  - repeat split; [by case_decide | done | by intros ? [= <-]].
  - repeat split; done.
Qed.

(** C7: the rule list handed to the mapping step is the two default rules,
    IP first and user-agent second, followed by the rules built from the
    configured entries, one per entry and in configuration order. *)
Theorem Create_enrichment_rules (ctx : context_Context) (name logEventPath : string)
    (destination : DestinationConfig) (monitorKeeper : MonitorKeeper)
    (eventsCache : caching_EventsCache) (loggerFactory : logging_Factory)
    (name' tableName : string) (fieldMapper : schema_Mapper)
    (enrichmentRules : list enrichment_Rule) (breakOnError : bool) :
  call_NewMappingStep name' tableName fieldMapper enrichmentRules breakOnError
    ∈ trace (Create ctx name logEventPath destination monitorKeeper eventsCache
               loggerFactory) →
  ∃ configured,
    Forall2 (λ ruleConfig rule, enrichment_NewRule ruleConfig = Ok rule)
      (Enrichment destination) configured ∧
    enrichmentRules =
      enrichment_DefaultJsIpRule :: enrichment_DefaultJsUaRule :: configured.
Proof.
  intros Hin. apply Create_NewMappingStep_call in Hin as (_ & _ & _ & Hloop).
  apply enrichmentLoop_Ok in Hloop as (configured & Hall & ->). by exists configured.
Qed.

(** C9: the queue [Create] asks for is identified by the name
    "queue.dst=" followed by the destination name, under the event-log
    path it was given; this name determines the destination name, so two
    destinations with different names never ask for the same queue. *)
Theorem Create_queue_name_injective (ctx : context_Context) (name logEventPath : string)
    (destination : DestinationConfig) (monitorKeeper : MonitorKeeper)
    (eventsCache : caching_EventsCache) (loggerFactory : logging_Factory) :
  (∀ queueName' path r,
     call_NewPersistentQueue queueName' path r
       ∈ trace (Create ctx name logEventPath destination monitorKeeper eventsCache
                  loggerFactory) →
     queueName' = "queue.dst=" +:+ name ∧ path = logEventPath ∧
     r = events_NewPersistentQueue ("queue.dst=" +:+ name) logEventPath) ∧
  (∀ other, queueName name = queueName other → name = other) ∧
  (∀ ctx' other logEventPath' destination' monitorKeeper' eventsCache' loggerFactory'
     queueName1 path1 r1 queueName2 path2 r2,
     other ≠ name →
     call_NewPersistentQueue queueName1 path1 r1
       ∈ trace (Create ctx name logEventPath destination monitorKeeper eventsCache
                  loggerFactory) →
     call_NewPersistentQueue queueName2 path2 r2
       ∈ trace (Create ctx' other logEventPath' destination' monitorKeeper' eventsCache'
                  loggerFactory') →
     queueName1 ≠ queueName2).
Proof.
  assert (Hinj : ∀ a b, queueName a = queueName b → a = b).
  { intros a b Heq. unfold queueName in Heq. cbv [String.append] in Heq.
    by injection Heq. }
  assert (Hcall : ∀ ctx name logEventPath destination monitorKeeper eventsCache
                    loggerFactory qn p r,
    call_NewPersistentQueue qn p r
      ∈ trace (Create ctx name logEventPath destination monitorKeeper eventsCache
                 loggerFactory) →
    qn = queueName name ∧ p = logEventPath ∧
    r = events_NewPersistentQueue (queueName name) logEventPath).
  { clear ctx name logEventPath destination monitorKeeper eventsCache loggerFactory.
    intros ctx name logEventPath destination monitorKeeper eventsCache loggerFactory
      qn p r Hin.
    assert (Hw : call_NewPersistentQueue qn p r
                   ∈ wiringCalls (trace (Create ctx name logEventPath destination
                                           monitorKeeper eventsCache loggerFactory))).
    { apply elem_of_wiringCalls. by split. }
    clear Hin.
    pose proof (Create_outcome ctx name logEventPath destination monitorKeeper
                  eventsCache loggerFactory) as Hout.
    cbv zeta in Hout.
    generalize dependent (withDefaults name destination). intros d.
    generalize dependent (wiringCalls (trace (Create ctx name logEventPath destination
                                                monitorKeeper eventsCache loggerFactory))).
    generalize dependent (value (Create ctx name logEventPath destination
                                   monitorKeeper eventsCache loggerFactory)).
    intros v t Hw Hout.
    destruct Hout as
      [ Hb Hs
      | e Hm Hloop
      | rules e Hm Hloop Hfm
      | rules fm casts e Hm Hloop Hfm Hstep
      | rules fm casts processor e Hm Hloop Hfm Hstep Hq
      | rules fm casts processor q Hm Hloop Hfm Hstep Hq Hf
      | rules fm casts processor q f Hm Hloop Hfm Hstep Hq Hf ].
    1-4: in_trace Hw.
    all: unfold queueCalls in Hw; case_decide;
      try match goal with q : option events_PersistentQueue |- _ => destruct q end;
      cbn [app closeCalls] in Hw; in_trace Hw; by injection Hw as -> -> ->. }
  split; [|split].
  - intros qn p r Hin. apply Hcall in Hin. exact Hin.
  - apply Hinj.
  - intros ctx' other logEventPath' destination' monitorKeeper' eventsCache'
      loggerFactory' qn1 p1 r1 qn2 p2 r2 Hne Hin1 Hin2 Heq.
    apply Hcall in Hin1 as (-> & _ & _). apply Hcall in Hin2 as (-> & _ & _).
    apply Hinj in Heq. by subst.
Qed.

End Pipeline.

(** The witness of [Create_table_name_never_empty]: a stream-mode postgres
    destination without [data_layout]; its table name is "events". *)
Lemma Create_table_name_never_empty_witness :
  "events" ≠ "" ∧
  (@DataLayout_ Demo.externals (Demo.destinationOf "postgres" "stream" None ["geo"]) = None →
   "events" = "events") ∧
  (∀ dataLayout,
     @DataLayout_ Demo.externals (Demo.destinationOf "postgres" "stream" None ["geo"])
       = Some dataLayout →
     "events" = if decide (TableNameTemplate dataLayout = "")
                then "events" else TableNameTemplate dataLayout).
Proof.
  apply (@Create_table_name_never_empty Demo.externals tt "pg" "/var/log/events"
           (Demo.destinationOf "postgres" "stream" None ["geo"]) tt tt tt
           "pg" "events" [] ["ip"; "ua"; "geo"] false).
  vm_compute. find_in_trace.
Defined.

(** The witness of [Create_enrichment_rules]: two configured rules follow
    the two default rules. *)
Lemma Create_enrichment_rules_witness :
  ∃ configured,
    Forall2 (λ ruleConfig rule, @enrichment_NewRule Demo.externals ruleConfig = Ok rule)
      ["geo"; "session"] configured ∧
    ["ip"; "ua"; "geo"; "session"] = "ip" :: "ua" :: configured.
Proof.
  apply (@Create_enrichment_rules Demo.externals tt "pg" "/var/log/events"
           (Demo.destinationOf "postgres" "batch" None ["geo"; "session"]) tt tt tt
           "pg" "events" [] ["ip"; "ua"; "geo"; "session"] false).
  vm_compute. find_in_trace.
Defined.

(** The witness of [Create_queue_name_injective]: the stream-mode
    destinations "a" and "b" under one event-log path ask for different
    queues. *)
Lemma Create_queue_name_injective_witness :
  "queue.dst=a" ≠ "queue.dst=b".
Proof.
  refine (proj2 (proj2 (@Create_queue_name_injective Demo.externals tt "a" "/var/log/events"
            (Demo.destinationOf "postgres" "stream" None []) tt tt tt))
          tt "b" "/var/log/events" (Demo.destinationOf "postgres" "stream" None []) tt tt tt
          "queue.dst=a" "/var/log/events" (Ok ("queue.dst=a", "/var/log/events"))
          "queue.dst=b" "/var/log/events" (Ok ("queue.dst=b", "/var/log/events")) _ _ _).
  - vm_compute. discriminate.
  - vm_compute. find_in_trace.
  - vm_compute. find_in_trace.
Defined.

(** ** Defaults *)

Section Defaults.
Context `{Externals}.

(** The two assignments at the head of [Create] compute [withDefaults]. *)
Lemma defaulting_steps (name : string) (d : DestinationConfig) :
  (if decide (Mode (if decide (Type_ d = "") then set_Type name d else d) = "")
   then set_Mode BatchMode (if decide (Type_ d = "") then set_Type name d else d)
   else if decide (Type_ d = "") then set_Type name d else d)
  = withDefaults name d.
Proof.
  unfold withDefaults, effectiveMode, effectiveType.
  destruct d; cbn. repeat case_decide; cbn in *; try reflexivity; done.
Qed.

Lemma withDefaults_idemp (name : string) (d : DestinationConfig) :
  withDefaults name (withDefaults name d) = withDefaults name d.
Proof.
  unfold withDefaults, effectiveMode, effectiveType.
  destruct d; cbn. repeat case_decide; cbn in *; subst; try reflexivity; done.
Qed.

(** C6: [Create] works on the configuration in which an empty type has
    been replaced by the destination name and an empty mode by "batch".
    Its run is the run on that configuration; the first call it makes,
    before any validation, logs the replaced type and mode; and a proxy it
    returns was selected by the replaced type and holds that
    configuration. *)
Theorem Create_applies_defaults (ctx : context_Context) (name logEventPath : string)
    (d : DestinationConfig) (monitorKeeper : MonitorKeeper)
    (eventsCache : caching_EventsCache) (loggerFactory : logging_Factory) :
  Type_ (withDefaults name d) = (if decide (Type_ d = "") then name else Type_ d) ∧
  Mode (withDefaults name d) = (if decide (Mode d = "") then "batch" else Mode d) ∧
  Create ctx name logEventPath d monitorKeeper eventsCache loggerFactory
    = Create ctx name logEventPath (withDefaults name d) monitorKeeper eventsCache
        loggerFactory ∧
  head (trace (Create ctx name logEventPath d monitorKeeper eventsCache loggerFactory)) =
    Some (logging_Infof ("[" +:+ name +:+ "] Initializing destination of type: "
                         +:+ Type_ (withDefaults name d) +:+ " in mode: "
                         +:+ Mode (withDefaults name d))) ∧
  (∀ proxy,
     storageProxy (value (Create ctx name logEventPath d monitorKeeper eventsCache
                            loggerFactory)) = Some proxy →
     factoryFor (Type_ (withDefaults name d)) = Some (factoryMethod proxy) ∧
     destination (config proxy) = withDefaults name d).
Proof.
  split; [reflexivity|]. split; [reflexivity|]. split; [|split].
  - unfold Create. cbv zeta.
    rewrite (defaulting_steps name d),
      (defaulting_steps name (withDefaults name d)), withDefaults_idemp.
    reflexivity.
  - unfold Create. cbv zeta.
    rewrite (defaulting_steps name d), trace_bind. reflexivity.
  - intros proxy Hproxy.
    pose proof (Create_outcome ctx name logEventPath d monitorKeeper
                  eventsCache loggerFactory) as Hout.
    cbv zeta in Hout.
    generalize dependent (wiringCalls (trace (Create ctx name logEventPath d monitorKeeper
                                                eventsCache loggerFactory))).
    generalize dependent (value (Create ctx name logEventPath d monitorKeeper
                                   eventsCache loggerFactory)).
    generalize dependent (withDefaults name d).
    intros defaulted v Hproxy t Hout.
    destruct Hout; cbn [storageProxy] in Hproxy; try discriminate Hproxy.
    injection Hproxy as <-. by split.
Qed.

End Defaults.

(** [Create_applies_defaults] on a destination named "postgres" with
    neither type nor mode: it is created as a postgres destination in batch
    mode. *)
Lemma Create_applies_defaults_witness :
  head (trace Demo.namedPostgres)
    = Some (logging_Infof
              "[postgres] Initializing destination of type: postgres in mode: batch") ∧
  ∃ proxy, storageProxy (value Demo.namedPostgres) = Some proxy ∧
           factoryMethod proxy = NewPostgres ∧
           Type_ (destination (config proxy)) = "postgres" ∧
           Mode (destination (config proxy)) = "batch".
Proof.
  pose proof (@Create_applies_defaults Demo.externals tt "postgres" "/var/log/events"
                (Demo.destinationOf "" "" None []) tt tt tt)
    as (_ & _ & _ & Hlog & Hproxy).
  split; [exact Hlog|].
  destruct (storageProxy (value Demo.namedPostgres)) as [proxy|] eqn:Hret;
    [|vm_compute in Hret; discriminate Hret].
  exists proxy. split; [reflexivity|].
  destruct (Hproxy proxy Hret) as [Hfactory Hdest].
  split; [|by rewrite Hdest].
  change (Some NewPostgres = Some (factoryMethod proxy)) in Hfactory.
  by injection Hfactory.
Defined.

(** ** A rule that cannot be built *)

Section FailedRule.
Context `{Externals}.
Variables (ctx : context_Context) (name logEventPath : string)
  (destination : DestinationConfig) (monitorKeeper : MonitorKeeper)
  (eventsCache : caching_EventsCache) (loggerFactory : logging_Factory).

Local Abbreviation created :=
  (Create ctx name logEventPath destination monitorKeeper eventsCache loggerFactory).

(** A configuration with an enrichment entry that could not be built is
    always refused, whether or not [Create] gets as far as building it:
    [Create] returns an error and neither a proxy nor a queue, and builds
    no mapper, pipeline, queue or proxy.  When the mode, after defaulting,
    is neither "batch" nor "stream", the error is the mode error; otherwise
    it is the error of the first entry that cannot be built. *)
Lemma Create_failed_rule_aborts (ruleConfig : enrichment_RuleConfig) :
  ruleConfig ∈ Enrichment destination →
  is_err (enrichment_NewRule ruleConfig) = true →
  err (value created) ≠ None ∧
  storageProxy (value created) = None ∧ queue (value created) = None ∧
  wiringCalls (trace created) = [] ∧
  (effectiveMode destination ≠ BatchMode ∧ effectiveMode destination ≠ StreamMode →
   err (value created) = Some (modeError (effectiveMode destination))) ∧
  (effectiveMode destination = BatchMode ∨ effectiveMode destination = StreamMode →
   ∃ before failed after cause,
     Enrichment destination = before ++ failed :: after ∧
     Forall (λ c, is_err (enrichment_NewRule c) = false) before ∧
     enrichment_NewRule failed = Err cause ∧
     err (value created) = Some (ruleError failed cause) ∧
     describesFailedRule destination (ruleError failed cause)).
Proof.
  intros Hin Hbad. set (run := created) in *.
  pose proof (Create_outcome ctx name logEventPath destination monitorKeeper
                eventsCache loggerFactory) as Hout.
  cbv zeta in Hout. fold run in Hout. clearbody run.
  destruct (enrichmentLoop_fails_on_bad_rule name _ defaultRules _ Hin Hbad)
    as [e0 Hfail].
  unfold describesFailedRule.
  change (effectiveMode destination) with (Mode (withDefaults name destination)).
  change (Enrichment destination) with (Enrichment (withDefaults name destination)) in *.
  generalize dependent (withDefaults name destination). intros d Hin Hfail.
  generalize dependent (wiringCalls (trace run)).
  generalize dependent (value run). intros v t Hout.
  destruct Hout as
    [ Hb Hs
    | e Hm Hloop
    | rules e Hm Hloop Hfm
    | rules fm casts e Hm Hloop Hfm Hstep
    | rules fm casts processor e Hm Hloop Hfm Hstep Hq
    | rules fm casts processor q Hm Hloop Hfm Hstep Hq Hf
    | rules fm casts processor q f Hm Hloop Hfm Hstep Hq Hf ];
    cbn [storageProxy queue err]; try congruence.
  - repeat split; try done. intros [?|?]; done.
  - repeat split; try done; [by intros [Hnb Hns]; destruct Hm|]. intros _.
    apply enrichmentLoop_Err in Hloop as (before & failed & after & cause & Heq & Hb & Hc & ->).
    exists before, failed, after, cause. repeat split; try done.
    exists failed, cause. repeat split; try done.
    rewrite Heq. apply elem_of_app. right. apply list_elem_of_here.
Qed.

End FailedRule.

(** [Create_failed_rule_aborts] on a batch-mode postgres destination whose
    second rule cannot be built. *)
Lemma Create_failed_rule_aborts_witness :
  err (value (Demo.run "pg" "/var/log/events" Demo.brokenRule))
    = Some "Error creating enrichment rule [broken]: unknown rule" ∧
  storageProxy (value (Demo.run "pg" "/var/log/events" Demo.brokenRule)) = None ∧
  wiringCalls (trace (Demo.run "pg" "/var/log/events" Demo.brokenRule)) = [].
Proof.
  split; [vm_compute; reflexivity|].
  destruct (@Create_failed_rule_aborts Demo.externals tt "pg" "/var/log/events"
              Demo.brokenRule tt tt tt "broken") as (_ & Hproxy & _ & Hcalls & _ & _).
  - vm_compute. find_in_trace.
  - vm_compute. reflexivity.
  - split; [exact Hproxy | exact Hcalls].
Defined.

(** With an invalid mode the mode is refused before any rule is built: the
    entry "broken" is never handed to [enrichment.NewRule], and the error
    returned is the mode error, which says nothing about that entry. *)
Example Create_invalid_mode_builds_no_rule :
  ruleCalls (trace (Demo.run "pg" "/var/log/events" Demo.brokenRuleInvalidMode)) = [] ∧
  "broken" ∈ @Enrichment Demo.externals Demo.brokenRuleInvalidMode ∧
  @enrichment_NewRule Demo.externals "broken" = Err "unknown rule" ∧
  err (value (Demo.run "pg" "/var/log/events" Demo.brokenRuleInvalidMode))
    = Some "Unknown destination mode: invalid. Available mode: [batch, stream]" ∧
  Contains "Unknown destination mode: invalid. Available mode: [batch, stream]" "broken"
    = false ∧
  ¬ (∃ msg,
       err (value (Demo.run "pg" "/var/log/events" Demo.brokenRuleInvalidMode)) = Some msg ∧
       @describesFailedRule Demo.externals Demo.brokenRuleInvalidMode msg).
Proof.
  split; [vm_compute; reflexivity|].
  split; [vm_compute; find_in_trace|].
  split; [vm_compute; reflexivity|]. split; [vm_compute; reflexivity|].
  split; [vm_compute; reflexivity|].
  intros (msg & Herr & c & cause & Hin & Hc & Hmsg).
  vm_compute in Herr. injection Herr as <-.
  vm_compute in Hin. in_trace Hin. subst c.
  vm_compute in Hc. injection Hc as <-.
  vm_compute in Hmsg. discriminate Hmsg.
Qed.

Section BothMappingStyles.
Variable E : Externals.
Variables (ctx : @context_Context (withCheckedMapper E)) (name logEventPath : string)
  (destination : @DestinationConfig (withCheckedMapper E))
  (monitorKeeper : @MonitorKeeper (withCheckedMapper E))
  (eventsCache : @caching_EventsCache (withCheckedMapper E))
  (loggerFactory : @logging_Factory (withCheckedMapper E)).

Local Abbreviation created :=
  (@Create (withCheckedMapper E) ctx name logEventPath destination monitorKeeper
     eventsCache loggerFactory).

(** C2: with the field-mapper constructor of the spec, a configuration
    whose [data_layout] has both a non-empty legacy mapping list and a
    structured mapping with fields is refused by [Create] itself: it
    returns an error and neither a proxy nor a queue, and no mapping step,
    queue or proxy is built, so no event is ever processed under it. *)
Theorem Create_rejects_both_mapping_styles
    (dataLayout : @DataLayout (withCheckedMapper E))
    (mapping : @schema_Mapping (withCheckedMapper E)) :
  DataLayout_ destination = Some dataLayout →
  Mapping dataLayout ≠ [] →
  Mappings dataLayout = Some mapping →
  @Fields (withCheckedMapper E) mapping ≠ [] →
  err (value created) ≠ None ∧
  storageProxy (value created) = None ∧ queue (value created) = None ∧
  (∀ name' tableName fieldMapper enrichmentRules breakOnError,
     call_NewMappingStep name' tableName fieldMapper enrichmentRules breakOnError
       ∉ trace created) ∧
  (∀ queueName path r, call_NewPersistentQueue queueName path r ∉ trace created) ∧
  (∀ factoryMethod config, call_newProxy factoryMethod config ∉ trace created).
Proof.
  intros Hlayout Hold Hnew Hfields. set (run := created) in *.
  cut (err (value run) ≠ None ∧
       storageProxy (value run) = None ∧ queue (value run) = None ∧
       ∀ c, c ∈ wiringCalls (trace run) →
         ∃ mappingType old new, c = call_NewFieldMapper mappingType old new).
  { intros (? & ? & ? & Hcalls). repeat split; try done.
    - intros n tn fm rs b Hin.
      destruct (Hcalls (call_NewMappingStep n tn fm rs b)) as (? & ? & ? & [=]).
      apply elem_of_wiringCalls. by split.
    - intros qn p r Hin.
      destruct (Hcalls (call_NewPersistentQueue qn p r)) as (? & ? & ? & [=]).
      apply elem_of_wiringCalls. by split.
    - intros f c Hin.
      destruct (Hcalls (call_newProxy f c)) as (? & ? & ? & [=]).
      apply elem_of_wiringCalls. by split. }
  pose proof (@Create_outcome (withCheckedMapper E) ctx name logEventPath destination
                monitorKeeper eventsCache loggerFactory) as Hout.
  cbv zeta in Hout. fold run in Hout. clearbody run.
  assert (Hboth : ∀ mappingType,
    @schema_NewFieldMapper (withCheckedMapper E) mappingType
      (oldStyleMappingsOf (withDefaults name destination))
      (newStyleMappingOf (withDefaults name destination)) = Err bothMappingStyles).
  { intros mappingType. cbn [schema_NewFieldMapper withCheckedMapper].
    unfold NewFieldMapper_spec, oldStyleMappingsOf, newStyleMappingOf.
    change (DataLayout_ (withDefaults name destination)) with (DataLayout_ destination).
    rewrite Hlayout, Hnew. unfold legacyConfigured, structuredConfigured.
    rewrite !bool_decide_eq_true_2; [reflexivity| |].
    - intros Hlen. apply Hfields. by apply nil_length_inv.
    - destruct (Mapping dataLayout); [done | cbn; lia]. }
  generalize dependent (withDefaults name destination). intros d.
  generalize dependent (wiringCalls (trace run)).
  generalize dependent (value run). intros v t Hout Hboth.
  destruct Hout as
    [ Hb Hs
    | e Hm Hloop
    | rules e Hm Hloop Hfm
    | rules fm casts e Hm Hloop Hfm Hstep
    | rules fm casts processor e Hm Hloop Hfm Hstep Hq
    | rules fm casts processor q Hm Hloop Hfm Hstep Hq Hf
    | rules fm casts processor q f Hm Hloop Hfm Hstep Hq Hf ];
    cbn [storageProxy queue err]; try (rewrite Hboth in Hfm; discriminate Hfm).
  1-2: repeat split; try done; intros c Hin; in_trace Hin.
  repeat split; try done. intros c Hin. in_trace Hin. subst c. eauto.
Qed.

End BothMappingStyles.

(** The witness of [Create_rejects_both_mapping_styles]. *)
Lemma Create_rejects_both_mapping_styles_witness :
  err (value (@Create (withCheckedMapper Demo.externals) tt "pg" "/var/log/events"
                (bothStylesDestination (withCheckedMapper Demo.externals)
                   "default" (None, ["src"])) tt tt tt))
    = Some bothMappingStyles ∧
  storageProxy (value (@Create (withCheckedMapper Demo.externals) tt "pg" "/var/log/events"
                         (bothStylesDestination (withCheckedMapper Demo.externals)
                            "default" (None, ["src"])) tt tt tt)) = None.
Proof.
  split; [vm_compute; reflexivity|].
  refine (proj1 (proj2 (Create_rejects_both_mapping_styles Demo.externals tt "pg"
            "/var/log/events"
            (bothStylesDestination (withCheckedMapper Demo.externals)
               "default" (None, ["src"])) tt tt tt
            (bothStylesLayout (withCheckedMapper Demo.externals) "default" (None, ["src"]))
            (None, ["src"]) _ _ _ _))).
  - vm_compute. reflexivity.
  - vm_compute. discriminate.
  - vm_compute. reflexivity.
  - vm_compute. discriminate.
Defined.

(** [Create] has no check of its own on the two styles: with a field-mapper
    constructor that accepts every configuration, the same destination is
    created. *)
Example Create_leaves_mapping_check_to_NewFieldMapper :
  err (value (Demo.run "pg" "/var/log/events"
                (bothStylesDestination Demo.externals "default" (None, ["src"])))) = None.
Proof. vm_compute. reflexivity. Qed.

(** ** More on the exits of [Create] *)

(** States the goal over an arbitrary outcome of the run on [d]. *)
Ltac outcome_of ctx name path d mk ec lf :=
  let Hout := fresh "Hout" in
  pose proof (Create_outcome ctx name path d mk ec lf) as Hout;
  cbv zeta in Hout; revert Hout;
  change (effectiveMode d) with (Mode (withDefaults name d));
  change (effectiveType name d) with (Type_ (withDefaults name d));
  change (tableNameOf d) with (tableNameOf (withDefaults name d));
  change (BreakOnError d) with (BreakOnError (withDefaults name d));
  change (Enrichment d) with (Enrichment (withDefaults name d));
  change (mappingFieldTypeOf d) with (mappingFieldTypeOf (withDefaults name d));
  change (oldStyleMappingsOf d) with (oldStyleMappingsOf (withDefaults name d));
  change (newStyleMappingOf d) with (newStyleMappingOf (withDefaults name d));
  generalize (withDefaults name d);
  generalize (wiringCalls (trace (Create ctx name path d mk ec lf)));
  generalize (value (Create ctx name path d mk ec lf)).

Section CreatedConfig.
Context `{Externals}.
Variables (ctx : context_Context) (name logEventPath : string)
  (d : DestinationConfig) (monitorKeeper : MonitorKeeper)
  (eventsCache : caching_EventsCache) (loggerFactory : logging_Factory).

Local Abbreviation created :=
  (Create ctx name logEventPath d monitorKeeper eventsCache loggerFactory).

Lemma pkFields_fold_lookup (fields : list string) (m : gmap string bool) (k : string) :
  foldl (λ pk field, <[field := true]> pk) m fields !! k
  = if decide (k ∈ fields) then Some true else m !! k.
Proof.
  revert m. induction fields as [|f fs IH]; intros m; cbn [foldl].
  - case_decide as Hin; [by apply elem_of_nil in Hin | reflexivity].
  - rewrite IH. destruct (decide (k ∈ fs)) as [Hfs|Hfs].
    + rewrite decide_True; [reflexivity | by apply list_elem_of_further].
    + destruct (decide (f = k)) as [->|Hne].
      * rewrite lookup_insert_eq, decide_True; [reflexivity | apply list_elem_of_here].
      * rewrite lookup_insert_ne by done. rewrite decide_False; [reflexivity|].
        intros Hin. apply elem_of_cons in Hin as [->|Hin]; done.
Qed.

(** What a successful run returns, in terms of what its collaborators
    returned. *)
Lemma Create_success (proxy : StorageProxy) :
  storageProxy (value created) = Some proxy →
  ∃ rules fm casts processor eventQueue factoryMethod,
    (effectiveMode d = BatchMode ∨ effectiveMode d = StreamMode) ∧
    value (enrichmentLoop name (Enrichment d) defaultRules) = Ok rules ∧
    schema_NewFieldMapper (mappingFieldTypeOf d) (oldStyleMappingsOf d)
      (newStyleMappingOf d) = Ok (fm, casts) ∧
    schema_NewMappingStep name (tableNameOf d) fm rules (BreakOnError d) = Ok processor ∧
    queueStage name logEventPath (effectiveMode d) = Ok eventQueue ∧
    factoryFor (effectiveType name d) = Some factoryMethod ∧
    value created =
      returned (Some (newProxy factoryMethod
                        (storageConfigOf ctx name monitorKeeper eventsCache loggerFactory
                           (withDefaults name d) processor eventQueue casts)))
        eventQueue None ∧
    wiringCalls (trace created) =
      [call_NewFieldMapper (mappingFieldTypeOf d) (oldStyleMappingsOf d)
         (newStyleMappingOf d);
       call_NewMappingStep name (tableNameOf d) fm rules (BreakOnError d)]
      ++ queueCalls name logEventPath (effectiveMode d)
      ++ [call_newProxy factoryMethod
            (storageConfigOf ctx name monitorKeeper eventsCache loggerFactory
               (withDefaults name d) processor eventQueue casts)].
Proof.
  outcome_of ctx name logEventPath d monitorKeeper eventsCache loggerFactory.
  intros v t d' Hout Hproxy.
  destruct Hout as
    [ Hb Hs
    | e Hm Hloop
    | rules e Hm Hloop Hfm
    | rules fm casts e Hm Hloop Hfm Hstep
    | rules fm casts processor e Hm Hloop Hfm Hstep Hq
    | rules fm casts processor q Hm Hloop Hfm Hstep Hq Hf
    | rules fm casts processor q f Hm Hloop Hfm Hstep Hq Hf ];
    cbn [storageProxy] in Hproxy; try discriminate Hproxy.
  exists rules, fm, casts, processor, q, f. repeat split; done.
Qed.

(** Lines 77, 88-90 and 173: the primary-key set of a created storage maps
    exactly the configured [primary_key_fields] to [true]; it is empty
    without a [data_layout], and no field is ever mapped to [false]. *)
Theorem Create_primary_keys (proxy : StorageProxy) (field : string) :
  storageProxy (value created) = Some proxy →
  pkFields (config proxy) !! field =
    match DataLayout_ d with
    | Some dataLayout =>
        if decide (field ∈ PrimaryKeyFields dataLayout) then Some true else None
    | None => None
    end.
Proof.
  intros Hproxy.
  destruct (Create_success proxy Hproxy)
    as (rules & fm & casts & processor & q & f & _ & _ & _ & _ & _ & _ & Hv & _).
  rewrite Hv in Hproxy. injection Hproxy as <-. cbn [config pkFields storageConfigOf].
  unfold pkFieldsOf. change (DataLayout_ (withDefaults name d)) with (DataLayout_ d).
  destruct (DataLayout_ d) as [dl|]; [|apply lookup_empty].
  rewrite pkFields_fold_lookup. case_decide; [reflexivity | apply lookup_empty].
Qed.


(** Lines 155-175 and 198: the queue held by the created storage is the
    queue returned to the caller, and the storage is marked as streaming
    exactly when it has one. *)
Theorem Create_shares_queue (proxy : StorageProxy) :
  storageProxy (value created) = Some proxy →
  eventQueue (config proxy) = queue (value created) ∧
  (streamMode (config proxy) = true ↔ effectiveMode d = StreamMode) ∧
  (streamMode (config proxy) = true ↔ is_Some (queue (value created))).
Proof.
  intros Hproxy.
  destruct (Create_success proxy Hproxy)
    as (rules & fm & casts & processor & q & f & _ & _ & _ & _ & Hq & _ & Hv & _).
  rewrite Hv in Hproxy |- *. injection Hproxy as <-.
  cbn [config eventQueue streamMode storageConfigOf queue].
  change (Mode (withDefaults name d)) with (effectiveMode d).
  rewrite bool_decide_eq_true.
  apply queueStage_Ok in Hq as [(Hmode & -> & _)|(Hmode & q' & -> & _)].
  - repeat split; try done; intros Hsome; by destruct Hsome.
  - repeat split; try done; by eexists.
Qed.

(** Lines 126, 150 and 163-175: the created storage holds the mapping step
    that [schema.NewMappingStep] returned for the destination name, the
    resolved table name and the [break_on_error] flag, and the type casts
    that [schema.NewFieldMapper] returned together with the field mapper
    this step was built from. *)
Theorem Create_wires_pipeline (proxy : StorageProxy) :
  storageProxy (value created) = Some proxy →
  ∃ fieldMapper configured,
    Forall2 (λ ruleConfig rule, enrichment_NewRule ruleConfig = Ok rule)
      (Enrichment d) configured ∧
    schema_NewFieldMapper (mappingFieldTypeOf d) (oldStyleMappingsOf d)
      (newStyleMappingOf d) = Ok (fieldMapper, sqlTypeCasts (config proxy)) ∧
    schema_NewMappingStep name (tableNameOf d) fieldMapper
      (enrichment_DefaultJsIpRule :: enrichment_DefaultJsUaRule :: configured)
      (BreakOnError d) = Ok (processor (config proxy)).
Proof.
  intros Hproxy.
  destruct (Create_success proxy Hproxy)
    as (rules & fm & casts & proc & q & f & _ & Hloop & Hfm & Hstep & _ & _ & Hv & _).
  rewrite Hv in Hproxy. injection Hproxy as <-.
  apply enrichmentLoop_Ok in Hloop as (configured & Hall & ->).
  exists fm, configured. repeat split; done.
Qed.

Lemma proxyCalls_wiringCalls (t : list Call) :
  proxyCalls (wiringCalls t) = proxyCalls t.
Proof.
  induction t as [|c t IH]; [reflexivity|].
  unfold wiringCalls in *. rewrite filter_cons.
  destruct c as [msg|msg|rc|mt old new|n tn fm rs b|qn p r|q|f cfg];
    case_decide; try done; unfold proxyCalls in *; cbn [omap list_omap];
    rewrite ?IH; reflexivity.
Qed.

(** Lines 177-190: the constructor of a created storage is the one the
    [switch] lists for the type, after defaulting; exactly one proxy is
    built, by one call of [newProxy] with this constructor and
    configuration, and it is the one returned. *)
Theorem Create_dispatch (proxy : StorageProxy) :
  storageProxy (value created) = Some proxy →
  ((effectiveType name d = "redshift" ∧ factoryMethod proxy = NewAwsRedshift) ∨
   (effectiveType name d = "bigquery" ∧ factoryMethod proxy = NewBigQuery) ∨
   (effectiveType name d = "postgres" ∧ factoryMethod proxy = NewPostgres) ∨
   (effectiveType name d = "clickhouse" ∧ factoryMethod proxy = NewClickHouse) ∨
   (effectiveType name d = "s3" ∧ factoryMethod proxy = NewS3) ∨
   (effectiveType name d = "snowflake" ∧ factoryMethod proxy = NewSnowflake)) ∧
  (∀ factoryMethod' config',
     call_newProxy factoryMethod' config' ∈ trace created ↔
     factoryMethod' = factoryMethod proxy ∧ config' = config proxy) ∧
  proxyCalls (trace created) = [(factoryMethod proxy, config proxy)].
Proof.
  intros Hproxy.
  destruct (Create_success proxy Hproxy)
    as (rules & fm & casts & proc & q & f & _ & _ & _ & _ & _ & Hf & Hv & Ht).
  rewrite Hv in Hproxy. injection Hproxy as <-. cbn [factoryMethod config].
  split; [|split].
  3:{ rewrite <- proxyCalls_wiringCalls, Ht. unfold queueCalls.
      case_decide; reflexivity. }
  - unfold factoryFor in Hf.
    repeat (case_decide as Htype;
            [injection Hf as <-; unfold RedshiftType, BigQueryType, PostgresType,
               ClickHouseType, S3Type, SnowflakeType in Htype; tauto|clear Htype]).
    discriminate Hf.
  - intros f' c'. split.
    + intros Hin.
      assert (Hw : call_newProxy f' c' ∈ wiringCalls (trace created))
        by (apply elem_of_wiringCalls; by split).
      rewrite Ht in Hw. unfold queueCalls in Hw. case_decide; cbn [app] in Hw;
        in_trace Hw; by injection Hw as -> ->.
    + intros [-> ->].
      enough (Hw : call_newProxy f
                     (storageConfigOf ctx name monitorKeeper eventsCache loggerFactory
                        (withDefaults name d) proc q casts)
                   ∈ wiringCalls (trace created))
        by (by apply elem_of_wiringCalls in Hw as [_ ?]).
      rewrite Ht. unfold queueCalls. case_decide; cbn [app]; find_in_trace.
Qed.

End CreatedConfig.

Section Exits.
Context `{Externals}.
Variables (ctx : context_Context) (name logEventPath : string)
  (destination : DestinationConfig) (monitorKeeper : MonitorKeeper)
  (eventsCache : caching_EventsCache) (loggerFactory : logging_Factory).

Local Abbreviation created :=
  (Create ctx name logEventPath destination monitorKeeper eventsCache loggerFactory).

(** Lines 98-198: [Create] succeeds exactly when the mode, after
    defaulting, is "batch" or "stream", every configured rule, the field
    mapper and the mapping step can be built, the queue can be opened when
    the mode is "stream", and the type, after defaulting, is one of the six
    of the [switch]. *)
Theorem Create_succeeds_iff :
  err (value created) = None ↔
  (effectiveMode destination = BatchMode ∨ effectiveMode destination = StreamMode) ∧
  (∃ configured fieldMapper casts,
     Forall2 (λ ruleConfig rule, enrichment_NewRule ruleConfig = Ok rule)
       (Enrichment destination) configured ∧
     schema_NewFieldMapper (mappingFieldTypeOf destination)
       (oldStyleMappingsOf destination) (newStyleMappingOf destination)
       = Ok (fieldMapper, casts) ∧
     is_err (schema_NewMappingStep name (tableNameOf destination) fieldMapper
               (enrichment_DefaultJsIpRule :: enrichment_DefaultJsUaRule :: configured)
               (BreakOnError destination)) = false) ∧
  (effectiveMode destination = StreamMode →
   is_err (events_NewPersistentQueue ("queue.dst=" +:+ name) logEventPath) = false) ∧
  effectiveType name destination ∈ recognizedTypes.
Proof.
  outcome_of ctx name logEventPath destination monitorKeeper eventsCache loggerFactory.
  intros v t d Hout.
  destruct Hout as
    [ Hb Hs
    | e Hm Hloop
    | rules e Hm Hloop Hfm
    | rules fm casts e Hm Hloop Hfm Hstep
    | rules fm casts processor e Hm Hloop Hfm Hstep Hq
    | rules fm casts processor q Hm Hloop Hfm Hstep Hq Hf
    | rules fm casts processor q f Hm Hloop Hfm Hstep Hq Hf ];
    cbn [err]; (split; [try discriminate|]).
  - intros ([?|?] & _); done.
  - intros (_ & (configured & fm & casts & Hall & _) & _).
    assert (value (enrichmentLoop name (Enrichment d) defaultRules)
            = Ok (defaultRules ++ configured)) as Hok
      by (apply enrichmentLoop_Ok; eauto).
    congruence.
  - intros (_ & (configured & fm & casts & _ & Hfm' & _) & _). congruence.
  - intros (_ & (configured & fm' & casts' & Hall & Hfm' & Hstep') & _).
    assert (value (enrichmentLoop name (Enrichment d) defaultRules)
            = Ok (defaultRules ++ configured)) as Hok
      by (apply enrichmentLoop_Ok; eauto).
    assert (rules = defaultRules ++ configured) as -> by congruence.
    assert (fm' = fm) as -> by congruence.
    cbn [app defaultRules] in Hstep. rewrite Hstep in Hstep'. discriminate Hstep'.
  - intros (_ & _ & Hqueue & _).
    unfold queueStage, queueName in Hq. case_decide as Hstream; [|discriminate Hq].
    specialize (Hqueue Hstream).
    destruct (events_NewPersistentQueue _ _); [discriminate Hq | discriminate Hqueue].
  - intros (_ & _ & _ & Htype). by apply factoryFor_None in Hf.
  - intros _. split; [exact Hm|]. split; [|split].
    + apply enrichmentLoop_Ok in Hloop as (configured & Hall & ->).
      exists configured, fm, casts. repeat split; try done.
      cbn [app defaultRules] in Hstep. by rewrite Hstep.
    + intros Hstream. unfold queueStage, queueName in Hq.
      rewrite decide_True in Hq by done.
      by destruct (events_NewPersistentQueue _ _).
    + by apply factoryFor_Some in Hf.
  - done.
Qed.

(** Lines 99, 120, 128, 152, 159 and 195: an error returned by [Create] is
    the mode error, the error of a configured rule wrapped with the rule's
    text, the unchanged error of [schema.NewFieldMapper],
    [schema.NewMappingStep] or [events.NewPersistentQueue], or the
    unknown-type error. *)
Theorem Create_error_origin (e : error) :
  err (value created) = Some e →
  e = modeError (effectiveMode destination) ∨
  (∃ ruleConfig cause,
     ruleConfig ∈ Enrichment destination ∧
     enrichment_NewRule ruleConfig = Err cause ∧
     e = "Error creating enrichment rule [" +:+ RuleConfig_String ruleConfig
         +:+ "]: " +:+ cause) ∨
  schema_NewFieldMapper (mappingFieldTypeOf destination) (oldStyleMappingsOf destination)
    (newStyleMappingOf destination) = Err e ∨
  (∃ fieldMapper enrichmentRules,
     schema_NewMappingStep name (tableNameOf destination) fieldMapper enrichmentRules
       (BreakOnError destination) = Err e) ∨
  events_NewPersistentQueue ("queue.dst=" +:+ name) logEventPath = Err e ∨
  e = unknownDestination.
Proof.
  outcome_of ctx name logEventPath destination monitorKeeper eventsCache loggerFactory.
  intros v t d Hout Herr.
  destruct Hout as
    [ Hb Hs
    | e' Hm Hloop
    | rules e' Hm Hloop Hfm
    | rules fm casts e' Hm Hloop Hfm Hstep
    | rules fm casts processor e' Hm Hloop Hfm Hstep Hq
    | rules fm casts processor q Hm Hloop Hfm Hstep Hq Hf
    | rules fm casts processor q f Hm Hloop Hfm Hstep Hq Hf ];
    cbn [err] in Herr; try discriminate Herr; injection Herr as <-.
  - by left.
  - right. left.
    apply enrichmentLoop_Err in Hloop as (before & c & after & cause & Heq & _ & Hc & ->).
    exists c, cause. repeat split; try done.
    rewrite Heq. apply elem_of_app. right. apply list_elem_of_here.
  - do 2 right. by left.
  - do 3 right. left. eauto.
  - do 4 right. left.
    unfold queueStage, queueName in Hq. case_decide; [|discriminate Hq].
    destruct (events_NewPersistentQueue _ _); [discriminate Hq | by injection Hq as ->].
  - by do 5 right.
Qed.

(** Lines 126-129: when the mode is valid and every rule can be built, an
    error of [schema.NewFieldMapper] is returned as it is; no mapping step
    is built, no queue is opened and no proxy is built. *)
Theorem Create_mapper_error (e : error) :
  effectiveMode destination = BatchMode ∨ effectiveMode destination = StreamMode →
  Forall (λ ruleConfig, is_err (enrichment_NewRule ruleConfig) = false)
    (Enrichment destination) →
  schema_NewFieldMapper (mappingFieldTypeOf destination) (oldStyleMappingsOf destination)
    (newStyleMappingOf destination) = Err e →
  value created = returned None None (Some e) ∧
  wiringCalls (trace created) =
    [call_NewFieldMapper (mappingFieldTypeOf destination) (oldStyleMappingsOf destination)
       (newStyleMappingOf destination)].
Proof.
  outcome_of ctx name logEventPath destination monitorKeeper eventsCache loggerFactory.
  intros v t d Hout Hmode Hrules Hmapper.
  destruct Hout as
    [ Hb Hs
    | e' Hm Hloop
    | rules e' Hm Hloop Hfm
    | rules fm casts e' Hm Hloop Hfm Hstep
    | rules fm casts processor e' Hm Hloop Hfm Hstep Hq
    | rules fm casts processor q Hm Hloop Hfm Hstep Hq Hf
    | rules fm casts processor q f Hm Hloop Hfm Hstep Hq Hf ];
    try congruence.
  - by destruct Hmode.
  - apply enrichmentLoop_Err in Hloop as (before & c & after & cause & Heq & _ & Hc & _).
    rewrite Heq in Hrules. apply Forall_app in Hrules as [_ Hrules].
    apply Forall_cons in Hrules as [Hok _]. by rewrite Hc in Hok.
  - split; [congruence | reflexivity].
Qed.

(** Lines 150-153: when the mode is valid and the rules and the field
    mapper can be built, an error of [schema.NewMappingStep] is returned as
    it is; no queue is opened and no proxy is built. *)
Theorem Create_step_error (configured : list enrichment_Rule)
    (fieldMapper : schema_Mapper) (casts : gmap string string) (e : error) :
  effectiveMode destination = BatchMode ∨ effectiveMode destination = StreamMode →
  Forall2 (λ ruleConfig rule, enrichment_NewRule ruleConfig = Ok rule)
    (Enrichment destination) configured →
  schema_NewFieldMapper (mappingFieldTypeOf destination) (oldStyleMappingsOf destination)
    (newStyleMappingOf destination) = Ok (fieldMapper, casts) →
  schema_NewMappingStep name (tableNameOf destination) fieldMapper
    (enrichment_DefaultJsIpRule :: enrichment_DefaultJsUaRule :: configured)
    (BreakOnError destination) = Err e →
  value created = returned None None (Some e) ∧
  (∀ queueName path r, call_NewPersistentQueue queueName path r ∉ trace created) ∧
  (∀ factoryMethod config, call_newProxy factoryMethod config ∉ trace created).
Proof.
  intros Hmode Hall Hmapper Hstep.
  assert (Hrules : value (enrichmentLoop name (Enrichment destination) defaultRules)
                   = Ok (defaultRules ++ configured))
    by (apply enrichmentLoop_Ok; eauto).
  clear Hall. cbn [app defaultRules] in Hrules.
  set (rules := enrichment_DefaultJsIpRule :: enrichment_DefaultJsUaRule :: configured)
    in *.
  clearbody rules.
  cut (value created = returned None None (Some e) ∧
       wiringCalls (trace created) =
         [call_NewFieldMapper (mappingFieldTypeOf destination)
            (oldStyleMappingsOf destination) (newStyleMappingOf destination);
          call_NewMappingStep name (tableNameOf destination) fieldMapper rules
            (BreakOnError destination)]).
  { intros [Hv Ht]. split; [exact Hv|]. split.
    - intros qn p r Hin.
      assert (Hw : call_NewPersistentQueue qn p r ∈ wiringCalls (trace created))
        by (apply elem_of_wiringCalls; by split).
      rewrite Ht in Hw. in_trace Hw.
    - intros f c Hin.
      assert (Hw : call_newProxy f c ∈ wiringCalls (trace created))
        by (apply elem_of_wiringCalls; by split).
      rewrite Ht in Hw. in_trace Hw. }
  revert Hmode Hrules Hmapper Hstep.
  outcome_of ctx name logEventPath destination monitorKeeper eventsCache loggerFactory.
  intros v t d Hout Hmode Hrules Hmapper Hstep.
  destruct Hout as
    [ Hb Hs
    | e' Hm Hloop
    | rules' e' Hm Hloop Hfm
    | rules' fm casts' e' Hm Hloop Hfm Hstep'
    | rules' fm casts' processor e' Hm Hloop Hfm Hstep' Hq
    | rules' fm casts' processor q Hm Hloop Hfm Hstep' Hq Hf
    | rules' fm casts' processor q f Hm Hloop Hfm Hstep' Hq Hf ];
    try (by destruct Hmode); try congruence.
  all: assert (rules' = rules) as -> by congruence;
       assert (fm = fieldMapper) as -> by congruence;
       try congruence.
  split; [congruence | reflexivity].
Qed.

(** Lines 155-161: in stream mode, when the pipeline has been built, an
    error of [events.NewPersistentQueue] is returned as it is, whatever the
    type; no queue is left open, [Close] is not called and no proxy is
    built. *)
Theorem Create_queue_error (configured : list enrichment_Rule)
    (fieldMapper : schema_Mapper) (casts : gmap string string)
    (processor : schema_MappingStep) (e : error) :
  effectiveMode destination = StreamMode →
  Forall2 (λ ruleConfig rule, enrichment_NewRule ruleConfig = Ok rule)
    (Enrichment destination) configured →
  schema_NewFieldMapper (mappingFieldTypeOf destination) (oldStyleMappingsOf destination)
    (newStyleMappingOf destination) = Ok (fieldMapper, casts) →
  schema_NewMappingStep name (tableNameOf destination) fieldMapper
    (enrichment_DefaultJsIpRule :: enrichment_DefaultJsUaRule :: configured)
    (BreakOnError destination) = Ok processor →
  events_NewPersistentQueue ("queue.dst=" +:+ name) logEventPath = Err e →
  value created = returned None None (Some e) ∧
  openQueues [] (trace created) = [] ∧
  (∀ q, call_Close q ∉ trace created) ∧
  (∀ factoryMethod config, call_newProxy factoryMethod config ∉ trace created).
Proof.
  intros Hmode Hall Hmapper Hstep Hqueue.
  assert (Hrules : value (enrichmentLoop name (Enrichment destination) defaultRules)
                   = Ok (defaultRules ++ configured))
    by (apply enrichmentLoop_Ok; eauto).
  clear Hall. cbn [app defaultRules] in Hrules.
  set (rules := enrichment_DefaultJsIpRule :: enrichment_DefaultJsUaRule :: configured)
    in *.
  clearbody rules.
  cut (value created = returned None None (Some e) ∧
       wiringCalls (trace created) =
         [call_NewFieldMapper (mappingFieldTypeOf destination)
            (oldStyleMappingsOf destination) (newStyleMappingOf destination);
          call_NewMappingStep name (tableNameOf destination) fieldMapper rules
            (BreakOnError destination);
          call_NewPersistentQueue ("queue.dst=" +:+ name) logEventPath (Err e)]).
  { intros [Hv Ht]. split; [exact Hv|]. split; [|split].
    - rewrite <- openQueues_wiringCalls, Ht. reflexivity.
    - intros q Hin.
      assert (Hw : call_Close q ∈ wiringCalls (trace created))
        by (apply elem_of_wiringCalls; by split).
      rewrite Ht in Hw. in_trace Hw.
    - intros f c Hin.
      assert (Hw : call_newProxy f c ∈ wiringCalls (trace created))
        by (apply elem_of_wiringCalls; by split).
      rewrite Ht in Hw. in_trace Hw. }
  assert (Hstage : queueStage name logEventPath (effectiveMode destination) = Err e).
  { unfold queueStage, queueName. rewrite decide_True by done. by rewrite Hqueue. }
  assert (Hcalls : queueCalls name logEventPath (effectiveMode destination)
                   = [call_NewPersistentQueue ("queue.dst=" +:+ name) logEventPath (Err e)]).
  { unfold queueCalls, queueName. rewrite decide_True by done. by rewrite Hqueue. }
  clear Hqueue. revert Hmode Hrules Hmapper Hstep Hstage Hcalls.
  outcome_of ctx name logEventPath destination monitorKeeper eventsCache loggerFactory.
  intros v t d Hout Hmode Hrules Hmapper Hstep Hstage Hcalls.
  destruct Hout as
    [ Hb Hs
    | e' Hm Hloop
    | rules' e' Hm Hloop Hfm
    | rules' fm casts' e' Hm Hloop Hfm Hstep'
    | rules' fm casts' processor' e' Hm Hloop Hfm Hstep' Hq
    | rules' fm casts' processor' q Hm Hloop Hfm Hstep' Hq Hf
    | rules' fm casts' processor' q f Hm Hloop Hfm Hstep' Hq Hf ];
    try congruence.
  all: assert (rules' = rules) as -> by congruence;
       assert (fm = fieldMapper) as -> by congruence;
       try congruence.
  rewrite Hcalls. split; [congruence | reflexivity].
Qed.

(** Lines 150-161: the queue is opened only after the mapping step has been
    built: before any call of [events.NewPersistentQueue] the field mapper
    and the mapping step were built successfully, in this order. *)
Theorem Create_queue_after_pipeline (queueName' path : string)
    (r : result events_PersistentQueue) :
  call_NewPersistentQueue queueName' path r ∈ trace created →
  ∃ fieldMapper casts rules processor rest,
    schema_NewFieldMapper (mappingFieldTypeOf destination) (oldStyleMappingsOf destination)
      (newStyleMappingOf destination) = Ok (fieldMapper, casts) ∧
    schema_NewMappingStep name (tableNameOf destination) fieldMapper rules
      (BreakOnError destination) = Ok processor ∧
    wiringCalls (trace created) =
      call_NewFieldMapper (mappingFieldTypeOf destination) (oldStyleMappingsOf destination)
        (newStyleMappingOf destination)
      :: call_NewMappingStep name (tableNameOf destination) fieldMapper rules
           (BreakOnError destination)
      :: call_NewPersistentQueue queueName' path r :: rest.
Proof.
  intros Hin.
  assert (Hw : call_NewPersistentQueue queueName' path r ∈ wiringCalls (trace created))
    by (apply elem_of_wiringCalls; by split).
  clear Hin. revert Hw.
  outcome_of ctx name logEventPath destination monitorKeeper eventsCache loggerFactory.
  intros v t d Hout Hw.
  destruct Hout as
    [ Hb Hs
    | e' Hm Hloop
    | rules e' Hm Hloop Hfm
    | rules fm casts e' Hm Hloop Hfm Hstep
    | rules fm casts processor e' Hm Hloop Hfm Hstep Hq
    | rules fm casts processor q Hm Hloop Hfm Hstep Hq Hf
    | rules fm casts processor q f Hm Hloop Hfm Hstep Hq Hf ].
  1-4: in_trace Hw.
  all: unfold queueCalls in *; case_decide;
    try match goal with q : option events_PersistentQueue |- _ => destruct q end;
    cbn [app closeCalls] in *; in_trace Hw; injection Hw as -> -> ->;
    exists fm, casts, rules, processor; eexists; repeat split; done.
Qed.

(** Lines 155-161 and 198: a successful run leaves open exactly the queue
    it returns, none in batch mode, and never calls [Close]: the open queue
    is handed over to the caller. *)
Theorem Create_hands_over_queue :
  err (value created) = None →
  openQueues [] (trace created) = option_list (queue (value created)) ∧
  (∀ q, call_Close q ∉ trace created).
Proof.
  intros Herr.
  cut (openQueues [] (wiringCalls (trace created)) = option_list (queue (value created)) ∧
       ∀ q, call_Close q ∉ wiringCalls (trace created)).
  { intros [Hopen Hclose]. split; [by rewrite <- openQueues_wiringCalls|].
    intros q Hin. apply (Hclose q), elem_of_wiringCalls. by split. }
  revert Herr.
  outcome_of ctx name logEventPath destination monitorKeeper eventsCache loggerFactory.
  intros v t d Hout Herr.
  destruct Hout as
    [ Hb Hs
    | e' Hm Hloop
    | rules e' Hm Hloop Hfm
    | rules fm casts e' Hm Hloop Hfm Hstep
    | rules fm casts processor e' Hm Hloop Hfm Hstep Hq
    | rules fm casts processor q Hm Hloop Hfm Hstep Hq Hf
    | rules fm casts processor q f Hm Hloop Hfm Hstep Hq Hf ];
    cbn [err queue] in *; try discriminate Herr.
  apply queueStage_Ok in Hq as [(_ & -> & ->)|(_ & q' & -> & ->)]; cbn [app];
    (split; [reflexivity | intros q0 Hin; in_trace Hin]).
Qed.

(** Lines 191-195: [Close] is called on the unknown-type exit only, and
    only on the queue this run has opened. *)
Theorem Create_closes_own_queue_only (q : events_PersistentQueue) :
  call_Close q ∈ trace created →
  err (value created) = Some unknownDestination ∧
  (effectiveType name destination ∉ recognizedTypes) ∧
  call_NewPersistentQueue ("queue.dst=" +:+ name) logEventPath (Ok q) ∈ trace created.
Proof.
  intros Hin.
  assert (Hw : call_Close q ∈ wiringCalls (trace created))
    by (apply elem_of_wiringCalls; by split).
  clear Hin.
  cut (err (value created) = Some unknownDestination ∧
       (effectiveType name destination ∉ recognizedTypes) ∧
       call_NewPersistentQueue ("queue.dst=" +:+ name) logEventPath (Ok q)
         ∈ wiringCalls (trace created)).
  { intros (? & ? & Hopen). repeat split; try done.
    by apply elem_of_wiringCalls in Hopen as [_ ?]. }
  revert Hw.
  outcome_of ctx name logEventPath destination monitorKeeper eventsCache loggerFactory.
  intros v t d Hout Hw.
  destruct Hout as
    [ Hb Hs
    | e' Hm Hloop
    | rules e' Hm Hloop Hfm
    | rules fm casts e' Hm Hloop Hfm Hstep
    | rules fm casts processor e' Hm Hloop Hfm Hstep Hq
    | rules fm casts processor q0 Hm Hloop Hfm Hstep Hq Hf
    | rules fm casts processor q0 f Hm Hloop Hfm Hstep Hq Hf ];
    cbn [err].
  1-4: in_trace Hw.
  - apply queueStage_Err in Hq as [_ Hcalls]. rewrite Hcalls in Hw. in_trace Hw.
  - apply factoryFor_None in Hf.
    apply queueStage_Ok in Hq as [(_ & -> & Hcalls)|(_ & q' & -> & Hcalls)];
      rewrite Hcalls in *; cbn [app closeCalls] in *; in_trace Hw.
    injection Hw as ->. repeat split; try done. find_in_trace.
  - apply queueStage_Ok in Hq as [(_ & -> & Hcalls)|(_ & q' & -> & Hcalls)];
      rewrite Hcalls in *; cbn [app] in *; in_trace Hw.
Qed.

(** Lines 177-198: a proxy is built exactly when [Create] succeeds; no
    failing run builds one. *)
Theorem Create_builds_proxy_iff_success :
  (err (value created) = None ↔
   ∃ factoryMethod config, call_newProxy factoryMethod config ∈ trace created) ∧
  (err (value created) = None ↔ is_Some (storageProxy (value created))).
Proof.
  cut ((err (value created) = None ↔
        ∃ factoryMethod config,
          call_newProxy factoryMethod config ∈ wiringCalls (trace created)) ∧
       (err (value created) = None ↔ is_Some (storageProxy (value created)))).
  { intros [Hiff Hsome]. split; [|exact Hsome].
    rewrite Hiff. split; intros (f & c & Hin); exists f, c.
    - by apply elem_of_wiringCalls in Hin as [_ ?].
    - apply elem_of_wiringCalls. by split. }
  outcome_of ctx name logEventPath destination monitorKeeper eventsCache loggerFactory.
  intros v t d Hout.
  destruct Hout as
    [ Hb Hs
    | e' Hm Hloop
    | rules e' Hm Hloop Hfm
    | rules fm casts e' Hm Hloop Hfm Hstep
    | rules fm casts processor e' Hm Hloop Hfm Hstep Hq
    | rules fm casts processor q0 Hm Hloop Hfm Hstep Hq Hf
    | rules fm casts processor q0 f Hm Hloop Hfm Hstep Hq Hf ];
    cbn [err storageProxy];
    (split; [split; [try discriminate | intros (f' & c' & Hin)]
            |split; [try discriminate | intros Hsome; try by destruct Hsome]]).
  1-4: in_trace Hin.
  - apply queueStage_Err in Hq as [_ Hcalls]. rewrite Hcalls in Hin. in_trace Hin.
  - apply queueStage_Ok in Hq as [(_ & -> & Hcalls)|(_ & q' & -> & Hcalls)];
      rewrite Hcalls in *; cbn [app closeCalls] in *; in_trace Hin.
  - intros _. eexists _, _. apply elem_of_cons. right. apply elem_of_cons. right.
    apply elem_of_app. right. apply list_elem_of_here.
  - reflexivity.
  - intros _. by eexists.
Qed.


End Exits.

(** ** What [Create] does not look at *)

Section Ignored.
Context `{Externals}.

(** Lines 155-161: outside stream mode the event-log path is not used:
    [Create] returns the same values and makes the same calls for any two
    paths. *)
Theorem Create_ignores_path_outside_stream (ctx : context_Context)
    (name logEventPath1 logEventPath2 : string) (destination : DestinationConfig)
    (monitorKeeper : MonitorKeeper) (eventsCache : caching_EventsCache)
    (loggerFactory : logging_Factory) :
  effectiveMode destination ≠ StreamMode →
  Create ctx name logEventPath1 destination monitorKeeper eventsCache loggerFactory
  = Create ctx name logEventPath2 destination monitorKeeper eventsCache loggerFactory.
Proof.
  intros Hmode. unfold Create. cbv zeta.
  rewrite (defaulting_steps name destination).
  change (effectiveMode destination) with (Mode (withDefaults name destination)) in Hmode.
  destruct (decide (Mode (withDefaults name destination) = StreamMode)); [done|].
  reflexivity.
Qed.

Lemma Outcome_same_settings (ctx1 ctx2 : context_Context) (name logEventPath : string)
    (monitorKeeper1 monitorKeeper2 : MonitorKeeper)
    (eventsCache1 eventsCache2 : caching_EventsCache)
    (loggerFactory1 loggerFactory2 : logging_Factory)
    (d1 d2 : DestinationConfig) (v1 v2 : Returned) (t1 t2 : list Call) :
  sameSettings d1 d2 →
  Outcome ctx1 name logEventPath monitorKeeper1 eventsCache1 loggerFactory1 d1 v1 t1 →
  Outcome ctx2 name logEventPath monitorKeeper2 eventsCache2 loggerFactory2 d2 v2 t2 →
  err v1 = err v2 ∧ queue v1 = queue v2 ∧
  factoryMethod <$> storageProxy v1 = factoryMethod <$> storageProxy v2.
Proof.
  intros (HT & HM & HL & HE & HB) H1 H2.
  assert (Hmt : mappingFieldTypeOf d1 = mappingFieldTypeOf d2)
    by (unfold mappingFieldTypeOf; by rewrite HL).
  assert (Hold : oldStyleMappingsOf d1 = oldStyleMappingsOf d2)
    by (unfold oldStyleMappingsOf; by rewrite HL).
  assert (Hnew : newStyleMappingOf d1 = newStyleMappingOf d2)
    by (unfold newStyleMappingOf; by rewrite HL).
  assert (Htn : tableNameOf d1 = tableNameOf d2)
    by (unfold tableNameOf, templateOf; by rewrite HL).
  destruct H1 as
    [ Hb Hs
    | e Hm Hloop
    | rules e Hm Hloop Hfm
    | rules fm casts e Hm Hloop Hfm Hstep
    | rules fm casts processor e Hm Hloop Hfm Hstep Hq
    | rules fm casts processor q Hm Hloop Hfm Hstep Hq Hf
    | rules fm casts processor q f Hm Hloop Hfm Hstep Hq Hf ];
  destruct H2 as
    [ Hb' Hs'
    | e' Hm' Hloop'
    | rules' e' Hm' Hloop' Hfm'
    | rules' fm' casts' e' Hm' Hloop' Hfm' Hstep'
    | rules' fm' casts' processor' e' Hm' Hloop' Hfm' Hstep' Hq'
    | rules' fm' casts' processor' q' Hm' Hloop' Hfm' Hstep' Hq' Hf'
    | rules' fm' casts' processor' q' f' Hm' Hloop' Hfm' Hstep' Hq' Hf' ];
    cbn [err queue storageProxy fmap option_fmap option_map factoryMethod];
    rewrite ?HT, ?HM, ?HE, ?HB, ?Hmt, ?Hold, ?Hnew, ?Htn in *;
    try (repeat split; congruence);
    try (destruct Hm; congruence); try (destruct Hm'; congruence).
Qed.

(** Lines 63-198: [Create] reads the type, the mode, the [data_layout], the
    enrichment entries and the [break_on_error] flag only.  Two runs under
    one name and path on configurations that agree on these, whatever
    their [only_tokens] and adapter blocks and whatever the other
    arguments, return the same error and the same queue and select the same
    constructor. *)
Theorem Create_reads_settings_only (ctx1 ctx2 : context_Context)
    (name logEventPath : string) (d1 d2 : DestinationConfig)
    (monitorKeeper1 monitorKeeper2 : MonitorKeeper)
    (eventsCache1 eventsCache2 : caching_EventsCache)
    (loggerFactory1 loggerFactory2 : logging_Factory) :
  sameSettings d1 d2 →
  err (value (Create ctx1 name logEventPath d1 monitorKeeper1 eventsCache1 loggerFactory1))
  = err (value (Create ctx2 name logEventPath d2 monitorKeeper2 eventsCache2
                  loggerFactory2)) ∧
  queue (value (Create ctx1 name logEventPath d1 monitorKeeper1 eventsCache1
                  loggerFactory1))
  = queue (value (Create ctx2 name logEventPath d2 monitorKeeper2 eventsCache2
                    loggerFactory2)) ∧
  factoryMethod <$> storageProxy (value (Create ctx1 name logEventPath d1 monitorKeeper1
                                           eventsCache1 loggerFactory1))
  = factoryMethod <$> storageProxy (value (Create ctx2 name logEventPath d2 monitorKeeper2
                                             eventsCache2 loggerFactory2)).
Proof.
  intros (HT & HM & HL & HE & HB).
  eapply Outcome_same_settings;
    [ | apply (Create_outcome ctx1 name logEventPath d1)
      | apply (Create_outcome ctx2 name logEventPath d2) ].
  unfold sameSettings, withDefaults, effectiveType, effectiveMode. cbn.
  rewrite HT, HM. repeat split; done.
Qed.

End Ignored.

(** ** The rules [Create] tries to build *)

Section RuleCalls.
Context `{Externals}.

Lemma ruleCalls_app (t1 t2 : list Call) :
  ruleCalls (t1 ++ t2) = ruleCalls t1 ++ ruleCalls t2.
Proof. apply omap_app. Qed.

Lemma forRange_ruleCalls {A} (xs : list A) (body : A → M unit) :
  (∀ x, ruleCalls (trace (body x)) = []) →
  ruleCalls (trace (forRange xs body)) = [].
Proof.
  intros Hbody. induction xs as [|x xs IH]; [reflexivity|].
  cbn [forRange]. rewrite trace_bind, ruleCalls_app, Hbody, IH. reflexivity.
Qed.

Lemma enrichmentLoop_ruleCalls (name : string) (ruleConfigs : list enrichment_RuleConfig)
    (acc : list enrichment_Rule) :
  ruleCalls (trace (enrichmentLoop name ruleConfigs acc)) = attempted ruleConfigs.
Proof.
  revert acc. induction ruleConfigs as [|c cs IH]; intros acc; [reflexivity|].
  cbn [enrichmentLoop attempted]. rewrite !trace_bind, !ruleCalls_app.
  change (ruleCalls (trace (call (logging_Infof ?m)))) with (@nil enrichment_RuleConfig).
  change (ruleCalls (trace (call (call_NewRule c)))) with [c].
  cbn [app]. f_equal.
  destruct (enrichment_NewRule c); cbn [is_err]; [apply IH | reflexivity].
Qed.

(** Lines 98-124: when the mode is valid, [enrichment.NewRule] is called on
    the configured entries in configuration order, up to and including the
    first one that cannot be built, and on no entry after it; when the mode
    is invalid it is not called at all. *)
Theorem Create_rule_calls (ctx : context_Context) (name logEventPath : string)
    (destination : DestinationConfig) (monitorKeeper : MonitorKeeper)
    (eventsCache : caching_EventsCache) (loggerFactory : logging_Factory) :
  ruleCalls (trace (Create ctx name logEventPath destination monitorKeeper eventsCache
                      loggerFactory))
  = if decide (effectiveMode destination = BatchMode ∨
               effectiveMode destination = StreamMode)
    then attempted (Enrichment destination) else [].
Proof.
  unfold Create. cbv zeta. rewrite (defaulting_steps name destination).
  change (effectiveMode destination) with (Mode (withDefaults name destination)).
  change (Enrichment destination) with (Enrichment (withDefaults name destination)).
  generalize (withDefaults name destination) as d. intros d.
  match goal with
  | |- context [match ?l with pair _ _ => _ end] =>
      match type of l with
      | (_ * gmap string bool)%type =>
          replace l with (mappingFieldTypeOf d, oldStyleMappingsOf d, newStyleMappingOf d,
                          templateOf d, pkFieldsOf d)
      end
  end.
  2:{ unfold mappingFieldTypeOf, oldStyleMappingsOf, newStyleMappingOf, templateOf,
        pkFieldsOf.
      destruct (DataLayout_ d) as [dl|]; [|reflexivity].
      case_decide as Ht; [reflexivity|]. rewrite Ht. reflexivity. }
  cbv beta iota.
  set (tbl := if decide (templateOf d = "") then _ else _).
  assert (Htt : ruleCalls (trace tbl) = []) by (unfold tbl; case_decide; reflexivity).
  generalize dependent tbl. intros tbl Htt.
  rewrite !trace_bind, !ruleCalls_app, Htt.
  change (ruleCalls (trace (call (logging_Infof ?m)))) with (@nil enrichment_RuleConfig).
  cbn [app].
  destruct (decide (Mode d ≠ BatchMode ∧ Mode d ≠ StreamMode)) as [[Hb Hs]|Hmode].
  { rewrite decide_False; [reflexivity | intros [?|?]; done]. }
  destruct (decide (Mode d = BatchMode ∨ Mode d = StreamMode)) as [Hvalid|Hinvalid].
  2:{ destruct Hmode. split; intros Heq; apply Hinvalid; [by left | by right]. }
  rewrite !trace_bind, !ruleCalls_app, enrichmentLoop_ruleCalls.
  match goal with
  | |- context [ruleCalls (trace (if ?c then _ else _))] =>
      replace (ruleCalls (trace (if c then call (logging_Warnf _) else _)))
        with (@nil enrichment_RuleConfig) by (destruct c; reflexivity)
  end.
  cbn [app].
  rewrite <- (app_nil_r (attempted (Enrichment d))) at 2. f_equal.
  destruct (value (enrichmentLoop _ _ _)) as [rules|e]; [|reflexivity].
  rewrite !trace_bind, !ruleCalls_app.
  destruct (schema_NewFieldMapper _ _ _) as [[fm casts]|e]; [|reflexivity].
  rewrite !trace_bind, !ruleCalls_app.
  match goal with
  | |- context [ruleCalls (trace ?logs) ++ ruleCalls (trace (call (call_NewMappingStep _ _ _ _ _))) ++ _] =>
      replace (ruleCalls (trace logs)) with (@nil enrichment_RuleConfig)
  end.
  2:{ destruct (newStyleMappingOf d); repeat case_decide;
      rewrite ?trace_bind, ?ruleCalls_app, ?forRange_ruleCalls by reflexivity;
      reflexivity. }
  destruct (schema_NewMappingStep _ _ _ _ _) as [processor|e]; [|reflexivity].
  rewrite !trace_bind, !ruleCalls_app.
  destruct (decide (Mode d = StreamMode));
    [destruct (events_NewPersistentQueue _ _) as [q|e']|];
    try reflexivity;
    repeat match goal with
      | |- context [decide (Type_ d = ?t)] => destruct (decide (Type_ d = t))
      end;
    reflexivity.
Qed.

End RuleCalls.

(** ** A rule whose construction fails *)

Section RuleFailure.
Context `{Externals}.
Variables (ctx : context_Context) (name logEventPath : string)
  (destination : DestinationConfig) (monitorKeeper : MonitorKeeper)
  (eventsCache : caching_EventsCache) (loggerFactory : logging_Factory).

Local Abbreviation created :=
  (Create ctx name logEventPath destination monitorKeeper eventsCache loggerFactory).

Lemma append_empty_r (s : string) : s +:+ "" = s.
Proof.
  induction s as [|c s IH]; [reflexivity|].
  change (String c s +:+ "") with (String c (s +:+ "")). by rewrite IH.
Qed.

Lemma Contains_end (before s : string) : Contains (before +:+ s) s = true.
Proof.
  rewrite <- (append_empty_r s) at 1. apply Contains_app.
Qed.

(** An entry the loop reaches and cannot build is the first such entry:
    everything before it was built. *)
Lemma attempted_failed (ruleConfigs : list enrichment_RuleConfig)
    (ruleConfig : enrichment_RuleConfig) (cause : error) :
  ruleConfig ∈ attempted ruleConfigs →
  enrichment_NewRule ruleConfig = Err cause →
  ∃ before after,
    ruleConfigs = before ++ ruleConfig :: after ∧
    Forall (λ c, is_err (enrichment_NewRule c) = false) before.
Proof.
  intros Hin Hc. induction ruleConfigs as [|a rest IH]; [by apply elem_of_nil in Hin|].
  cbn [attempted] in Hin.
  destruct (is_err (enrichment_NewRule a)) eqn:Ha.
  - apply elem_of_cons in Hin as [->|Hin]; [|by apply elem_of_nil in Hin].
    exists [], rest. split; [reflexivity | constructor].
  - apply elem_of_cons in Hin as [->|Hin]; [by rewrite Hc in Ha|].
    destruct (IH Hin) as (before & after & -> & Hok).
    exists (a :: before), after. split; [reflexivity | by constructor].
Qed.

(** The entries [Create] hands to [enrichment.NewRule]. *)
Lemma Create_NewRule_calls (ruleConfig : enrichment_RuleConfig) :
  call_NewRule ruleConfig ∈ trace created ↔
  (effectiveMode destination = BatchMode ∨ effectiveMode destination = StreamMode) ∧
  ruleConfig ∈ attempted (Enrichment destination).
Proof.
  assert (Hcalls : ruleCalls (trace created)
                   = if decide (effectiveMode destination = BatchMode ∨
                                effectiveMode destination = StreamMode)
                     then attempted (Enrichment destination) else []).
  { unfold Create. cbv zeta. rewrite (defaulting_steps name destination).
    change (effectiveMode destination) with (Mode (withDefaults name destination)).
    change (Enrichment destination) with (Enrichment (withDefaults name destination)).
    generalize (withDefaults name destination) as d. intros d.
    match goal with
    | |- context [match ?l with pair _ _ => _ end] =>
        match type of l with
        | (_ * gmap string bool)%type =>
            replace l with (mappingFieldTypeOf d, oldStyleMappingsOf d,
                            newStyleMappingOf d, templateOf d, pkFieldsOf d)
        end
    end.
    2:{ unfold mappingFieldTypeOf, oldStyleMappingsOf, newStyleMappingOf, templateOf,
          pkFieldsOf.
        destruct (DataLayout_ d) as [dl|]; [|reflexivity].
        case_decide as Ht; [reflexivity|]. rewrite Ht. reflexivity. }
    cbv beta iota.
    set (tbl := if decide (templateOf d = "") then _ else _).
    assert (Htt : ruleCalls (trace tbl) = []) by (unfold tbl; case_decide; reflexivity).
    generalize dependent tbl. intros tbl Htt.
    rewrite !trace_bind, !ruleCalls_app, Htt.
    change (ruleCalls (trace (call (logging_Infof ?m)))) with (@nil enrichment_RuleConfig).
    cbn [app].
    destruct (decide (Mode d ≠ BatchMode ∧ Mode d ≠ StreamMode)) as [[Hb Hs]|Hmode].
    { rewrite decide_False; [reflexivity | intros [?|?]; done]. }
    destruct (decide (Mode d = BatchMode ∨ Mode d = StreamMode)) as [Hvalid|Hinvalid].
    2:{ destruct Hmode. split; intros Heq; apply Hinvalid; [by left | by right]. }
    rewrite !trace_bind, !ruleCalls_app, enrichmentLoop_ruleCalls.
    match goal with
    | |- context [ruleCalls (trace (if ?c then _ else _))] =>
        replace (ruleCalls (trace (if c then call (logging_Warnf _) else _)))
          with (@nil enrichment_RuleConfig) by (destruct c; reflexivity)
    end.
    cbn [app].
    rewrite <- (app_nil_r (attempted (Enrichment d))) at 2. f_equal.
    destruct (value (enrichmentLoop _ _ _)) as [rules|e]; [|reflexivity].
    rewrite !trace_bind, !ruleCalls_app.
    destruct (schema_NewFieldMapper _ _ _) as [[fm casts]|e]; [|reflexivity].
    rewrite !trace_bind, !ruleCalls_app.
    match goal with
    | |- context [ruleCalls (trace ?logs)
                  ++ ruleCalls (trace (call (call_NewMappingStep _ _ _ _ _))) ++ _] =>
        replace (ruleCalls (trace logs)) with (@nil enrichment_RuleConfig)
    end.
    2:{ destruct (newStyleMappingOf d); repeat case_decide;
        rewrite ?trace_bind, ?ruleCalls_app, ?forRange_ruleCalls by reflexivity;
        reflexivity. }
    destruct (schema_NewMappingStep _ _ _ _ _) as [processor|e]; [|reflexivity].
    rewrite !trace_bind, !ruleCalls_app.
    destruct (decide (Mode d = StreamMode));
      [destruct (events_NewPersistentQueue _ _) as [q|e']|];
      try reflexivity;
      repeat match goal with
        | |- context [decide (Type_ d = ?t)] => destruct (decide (Type_ d = t))
        end;
      reflexivity. }
  assert (Hmem : call_NewRule ruleConfig ∈ trace created ↔
                 ruleConfig ∈ ruleCalls (trace created)).
  { unfold ruleCalls. rewrite list_elem_of_omap. split.
    - intros Hin. by exists (call_NewRule ruleConfig).
    - intros (c & Hin & Hc). destruct c; try discriminate Hc. by injection Hc as ->. }
  rewrite Hmem, Hcalls. case_decide as Hvalid.
  - split; [by intros ? | by intros [_ ?]].
  - split; [by intros Hin; apply elem_of_nil in Hin | by intros [? _]].
Qed.

(** C8: when the construction of a configured enrichment rule fails, that
    is, when [Create] hands an entry to [enrichment.NewRule] and gets an
    error, [Create] aborts: it returns the error
    "Error creating enrichment rule [<entry>]: <cause>", which contains the
    text of the failed entry and the cause, with neither a proxy nor a
    queue; no mapper, pipeline, queue or proxy is built, so the destination
    is never activated. *)
Theorem Create_rule_failure_aborts (ruleConfig : enrichment_RuleConfig) (cause : error) :
  call_NewRule ruleConfig ∈ trace created →
  enrichment_NewRule ruleConfig = Err cause →
  ruleConfig ∈ Enrichment destination ∧
  value created =
    returned None None
      (Some ("Error creating enrichment rule [" +:+ RuleConfig_String ruleConfig
             +:+ "]: " +:+ cause)) ∧
  Contains ("Error creating enrichment rule [" +:+ RuleConfig_String ruleConfig
            +:+ "]: " +:+ cause) (RuleConfig_String ruleConfig) = true ∧
  Contains ("Error creating enrichment rule [" +:+ RuleConfig_String ruleConfig
            +:+ "]: " +:+ cause) cause = true ∧
  wiringCalls (trace created) = [] ∧
  (∀ factoryMethod config, call_newProxy factoryMethod config ∉ trace created).
Proof.
  intros Hin Hc.
  apply Create_NewRule_calls in Hin as [Hvalid Hatt].
  destruct (attempted_failed _ _ _ Hatt Hc) as (before & after & Heq & Hok).
  assert (Hloop : value (enrichmentLoop name (Enrichment destination) defaultRules)
                  = Err (ruleError ruleConfig cause)).
  { apply enrichmentLoop_Err. exists before, ruleConfig, after, cause. by repeat split. }
  split; [rewrite Heq; apply elem_of_app; right; apply list_elem_of_here|].
  split; [|split; [apply Contains_app|split; [do 2 apply Contains_skip; apply Contains_end|]]].
  2:{ cut (wiringCalls (trace created) = []).
      { intros Ht. split; [exact Ht|]. intros f c Hproxy.
        assert (Hw : call_newProxy f c ∈ wiringCalls (trace created))
          by (apply elem_of_wiringCalls; by split).
        rewrite Ht in Hw. by apply elem_of_nil in Hw. }
      clear Heq Hok Hatt. revert Hvalid Hloop.
      outcome_of ctx name logEventPath destination monitorKeeper eventsCache loggerFactory.
      intros v t d Hout Hvalid Hloop.
      destruct Hout; congruence. }
  clear Heq Hok Hatt. revert Hvalid Hloop.
  outcome_of ctx name logEventPath destination monitorKeeper eventsCache loggerFactory.
  intros v t d Hout Hvalid Hloop.
  destruct Hout as
    [ Hb Hs
    | e Hm Hloop'
    | rules e Hm Hloop' Hfm
    | rules fm casts e Hm Hloop' Hfm Hstep
    | rules fm casts processor e Hm Hloop' Hfm Hstep Hq
    | rules fm casts processor q Hm Hloop' Hfm Hstep Hq Hf
    | rules fm casts processor q f Hm Hloop' Hfm Hstep Hq Hf ];
    try congruence.
  - by destruct Hvalid.
  - rewrite Hloop in Hloop'. by injection Hloop' as <-.
Qed.

End RuleFailure.

(** The witness of [Create_rule_failure_aborts]: a batch-mode postgres
    destination whose second rule, "broken", is handed to
    [enrichment.NewRule] and cannot be built. *)
Lemma Create_rule_failure_aborts_witness :
  @call_NewRule Demo.externals "broken"
    ∈ trace (Demo.run "pg" "/var/log/events" Demo.brokenRule) ∧
  value (Demo.run "pg" "/var/log/events" Demo.brokenRule)
    = returned None None (Some "Error creating enrichment rule [broken]: unknown rule") ∧
  wiringCalls (trace (Demo.run "pg" "/var/log/events" Demo.brokenRule)) = [].
Proof.
  assert (Hcall : @call_NewRule Demo.externals "broken"
                    ∈ trace (Demo.run "pg" "/var/log/events" Demo.brokenRule))
    by (vm_compute; find_in_trace).
  split; [exact Hcall|].
  destruct (@Create_rule_failure_aborts Demo.externals tt "pg" "/var/log/events"
              Demo.brokenRule tt tt tt "broken" "unknown rule" Hcall)
    as (_ & Hv & _ & _ & Ht & _).
  - vm_compute. reflexivity.
  - split; [exact Hv | exact Ht].
Defined.

(** ** The type is examined last *)

Section TypeLast.
Context `{Externals}.
Variables (ctx : context_Context) (name logEventPath : string)
  (destination : DestinationConfig) (monitorKeeper : MonitorKeeper)
  (eventsCache : caching_EventsCache) (loggerFactory : logging_Factory).

Local Abbreviation created :=
  (Create ctx name logEventPath destination monitorKeeper eventsCache loggerFactory).

(** Lines 155-196: the type is examined after the queue has been opened.
    In stream mode a destination of an unknown type whose pipeline can be
    built gets its queue opened and then closed, before the unknown-type
    error is returned. *)
Theorem Create_checks_type_last (configured : list enrichment_Rule)
    (fieldMapper : schema_Mapper) (casts : gmap string string)
    (processor : schema_MappingStep) (q : events_PersistentQueue) :
  effectiveMode destination = StreamMode →
  Forall2 (λ ruleConfig rule, enrichment_NewRule ruleConfig = Ok rule)
    (Enrichment destination) configured →
  schema_NewFieldMapper (mappingFieldTypeOf destination) (oldStyleMappingsOf destination)
    (newStyleMappingOf destination) = Ok (fieldMapper, casts) →
  schema_NewMappingStep name (tableNameOf destination) fieldMapper
    (enrichment_DefaultJsIpRule :: enrichment_DefaultJsUaRule :: configured)
    (BreakOnError destination) = Ok processor →
  events_NewPersistentQueue ("queue.dst=" +:+ name) logEventPath = Ok q →
  effectiveType name destination ∉ recognizedTypes →
  value created = returned None None (Some unknownDestination) ∧
  wiringCalls (trace created) =
    [call_NewFieldMapper (mappingFieldTypeOf destination) (oldStyleMappingsOf destination)
       (newStyleMappingOf destination);
     call_NewMappingStep name (tableNameOf destination) fieldMapper
       (enrichment_DefaultJsIpRule :: enrichment_DefaultJsUaRule :: configured)
       (BreakOnError destination);
     call_NewPersistentQueue ("queue.dst=" +:+ name) logEventPath (Ok q);
     call_Close q].
Proof.
  intros Hmode Hall Hmapper Hstep Hqueue Htype.
  assert (Hrules : value (enrichmentLoop name (Enrichment destination) defaultRules)
                   = Ok (defaultRules ++ configured))
    by (apply enrichmentLoop_Ok; eauto).
  clear Hall. cbn [app defaultRules] in Hrules.
  set (rules := enrichment_DefaultJsIpRule :: enrichment_DefaultJsUaRule :: configured)
    in *.
  clearbody rules.
  assert (Hstage : queueStage name logEventPath (effectiveMode destination) = Ok (Some q)).
  { unfold queueStage, queueName. rewrite decide_True by done. by rewrite Hqueue. }
  assert (Hcalls : queueCalls name logEventPath (effectiveMode destination)
                   = [call_NewPersistentQueue ("queue.dst=" +:+ name) logEventPath (Ok q)]).
  { unfold queueCalls, queueName. rewrite decide_True by done. by rewrite Hqueue. }
  clear Hqueue. revert Hmode Hrules Hmapper Hstep Hstage Hcalls Htype.
  outcome_of ctx name logEventPath destination monitorKeeper eventsCache loggerFactory.
  intros v t d Hout Hmode Hrules Hmapper Hstep Hstage Hcalls Htype.
  destruct Hout as
    [ Hb Hs
    | e' Hm Hloop
    | rules' e' Hm Hloop Hfm
    | rules' fm casts' e' Hm Hloop Hfm Hstep'
    | rules' fm casts' processor' e' Hm Hloop Hfm Hstep' Hq
    | rules' fm casts' processor' q0 Hm Hloop Hfm Hstep' Hq Hf
    | rules' fm casts' processor' q0 f Hm Hloop Hfm Hstep' Hq Hf ];
    try congruence.
  all: assert (rules' = rules) as -> by congruence;
       assert (fm = fieldMapper) as -> by congruence;
       try congruence.
  - assert (q0 = Some q) as -> by congruence. rewrite Hcalls. by split.
  - by apply factoryFor_Some in Hf.
Qed.

End TypeLast.

(** ** Runs that show the statements above at work *)

Lemma Create_primary_keys_witness :
  ∃ proxy,
    storageProxy (value (Strict.run "pg" "/var/log/events" Strict.keyed)) = Some proxy ∧
    pkFields (config proxy) !! "id" = Some true ∧
    pkFields (config proxy) !! "ts" = Some true ∧
    pkFields (config proxy) !! "name" = None.
Proof.
  destruct (storageProxy (value (Strict.run "pg" "/var/log/events" Strict.keyed)))
    as [proxy|] eqn:Hret; [|vm_compute in Hret; discriminate Hret].
  exists proxy. split; [reflexivity|].
  pose proof (@Create_primary_keys Strict.externals tt "pg" "/var/log/events" Strict.keyed
                tt tt tt proxy) as Hkeys.
  rewrite (Hkeys "id" Hret), (Hkeys "ts" Hret), (Hkeys "name" Hret).
  vm_compute. repeat split.
Defined.

Lemma Create_shares_queue_witness :
  ∃ proxy,
    storageProxy (value Demo.postgresStream) = Some proxy ∧
    eventQueue (config proxy) = Some ("queue.dst=pg", "/var/log/events") ∧
    streamMode (config proxy) = true.
Proof.
  destruct (storageProxy (value Demo.postgresStream)) as [proxy|] eqn:Hret;
    [|vm_compute in Hret; discriminate Hret].
  exists proxy. split; [reflexivity|].
  destruct (@Create_shares_queue Demo.externals tt "pg" "/var/log/events"
              (Demo.destinationOf "postgres" "stream" None []) tt tt tt proxy Hret)
    as (Hqueue & Hstream & _).
  split; [rewrite Hqueue; vm_compute; reflexivity|].
  apply Hstream. vm_compute. reflexivity.
Defined.

Lemma Create_wires_pipeline_witness :
  ∃ proxy,
    storageProxy (value (Strict.run "pg" "/var/log/events" Strict.keyed)) = Some proxy ∧
    Strict.NewMappingStep "pg" "events" [] ["ip"; "ua"; "geo"] false
      = Ok (processor (config proxy)).
Proof.
  destruct (storageProxy (value (Strict.run "pg" "/var/log/events" Strict.keyed)))
    as [proxy|] eqn:Hret; [|vm_compute in Hret; discriminate Hret].
  exists proxy. split; [reflexivity|].
  destruct (@Create_wires_pipeline Strict.externals tt "pg" "/var/log/events" Strict.keyed
              tt tt tt proxy Hret) as (fm & configured & Hall & Hfm & Hstep).
  vm_compute in Hfm. injection Hfm as <- _.
  inversion Hall as [|c r cs rs Hr Hrest]; subst.
  inversion Hrest; subst. vm_compute in Hr. injection Hr as <-.
  exact Hstep.
Defined.

Lemma Create_dispatch_witness :
  ∃ proxy,
    storageProxy (value Demo.postgresStream) = Some proxy ∧
    factoryMethod proxy = NewPostgres ∧
    proxyCalls (trace Demo.postgresStream) = [(NewPostgres, config proxy)].
Proof.
  destruct (storageProxy (value Demo.postgresStream)) as [proxy|] eqn:Hret;
    [|vm_compute in Hret; discriminate Hret].
  exists proxy. split; [reflexivity|].
  destruct (@Create_dispatch Demo.externals tt "pg" "/var/log/events"
              (Demo.destinationOf "postgres" "stream" None []) tt tt tt proxy Hret)
    as (Htable & _ & Hcalls).
  destruct Htable as [[Ht _]|[[Ht _]|[[_ Hf]|[[Ht _]|[[Ht _]|[Ht _]]]]]];
    try (vm_compute in Ht; discriminate Ht).
  split; [exact Hf|]. rewrite <- Hf. exact Hcalls.
Defined.

Lemma Create_error_origin_witness :
  @schema_NewFieldMapper Strict.externals "legacy" [] None
    = Err "Unknown field mapping type: legacy" ∧
  err (value (Strict.run "pg" "/var/log/events" Strict.unknownMapping))
    = Some "Unknown field mapping type: legacy".
Proof.
  assert (Herr : err (value (Strict.run "pg" "/var/log/events" Strict.unknownMapping))
                 = Some "Unknown field mapping type: legacy")
    by (vm_compute; reflexivity).
  split; [|exact Herr].
  destruct (@Create_error_origin Strict.externals tt "pg" "/var/log/events"
              Strict.unknownMapping tt tt tt _ Herr)
    as [Hm|[(c & cause & _ & _ & Hm)|[Hm|[(fm & rs & Hm)|[Hm|Hm]]]]].
  - vm_compute in Hm. discriminate Hm.
  - exfalso. revert Hm. generalize (@RuleConfig_String Strict.externals c).
    intros s Hm. vm_compute in Hm. discriminate Hm.
  - exact Hm.
  - vm_compute in Hm. discriminate Hm.
  - vm_compute in Hm. discriminate Hm.
  - vm_compute in Hm. discriminate Hm.
Defined.

Lemma Create_mapper_error_witness :
  value (Strict.run "pg" "/var/log/events" Strict.unknownMapping)
    = returned None None (Some "Unknown field mapping type: legacy") ∧
  wiringCalls (trace (Strict.run "pg" "/var/log/events" Strict.unknownMapping))
    = [@call_NewFieldMapper Strict.externals "legacy" [] None].
Proof.
  apply (@Create_mapper_error Strict.externals tt "pg" "/var/log/events"
           Strict.unknownMapping tt tt tt "Unknown field mapping type: legacy").
  - vm_compute. by left.
  - repeat constructor.
  - vm_compute. reflexivity.
Defined.

Lemma Create_step_error_witness :
  value (Strict.run "pg" "/var/log/events" Strict.unclosedTemplate)
    = returned None None (Some "Error parsing table name template") ∧
  (∀ queueName path r,
     call_NewPersistentQueue queueName path r
       ∉ trace (Strict.run "pg" "/var/log/events" Strict.unclosedTemplate)) ∧
  (∀ factoryMethod config,
     call_newProxy factoryMethod config
       ∉ trace (Strict.run "pg" "/var/log/events" Strict.unclosedTemplate)).
Proof.
  apply (@Create_step_error Strict.externals tt "pg" "/var/log/events"
           Strict.unclosedTemplate tt tt tt ["geo"] [] ∅
           "Error parsing table name template").
  - vm_compute. by right.
  - repeat constructor.
  - vm_compute. reflexivity.
  - vm_compute. reflexivity.
Defined.

Lemma Create_queue_error_witness :
  value (Demo.run "pg" "" (Demo.destinationOf "postgres" "stream" None ["geo"]))
    = returned None None (Some "no event log directory") ∧
  openQueues [] (trace (Demo.run "pg" "" (Demo.destinationOf "postgres" "stream" None
                                            ["geo"]))) = [].
Proof.
  destruct (@Create_queue_error Demo.externals tt "pg" ""
              (Demo.destinationOf "postgres" "stream" None ["geo"]) tt tt tt
              ["geo"] [] ∅ "events" "no event log directory")
    as (Hv & Hopen & _).
  - vm_compute. reflexivity.
  - repeat constructor.
  - vm_compute. reflexivity.
  - vm_compute. reflexivity.
  - vm_compute. reflexivity.
  - split; [exact Hv | exact Hopen].
Defined.

Lemma Create_queue_after_pipeline_witness :
  ∃ rest,
    wiringCalls (trace Demo.postgresStream) =
      @call_NewFieldMapper Demo.externals "default" [] None
      :: @call_NewMappingStep Demo.externals "pg" "events" [] ["ip"; "ua"] false
      :: @call_NewPersistentQueue Demo.externals "queue.dst=pg" "/var/log/events"
           (Ok ("queue.dst=pg", "/var/log/events"))
      :: rest.
Proof.
  destruct (@Create_queue_after_pipeline Demo.externals tt "pg" "/var/log/events"
              (Demo.destinationOf "postgres" "stream" None []) tt tt tt
              "queue.dst=pg" "/var/log/events" (Ok ("queue.dst=pg", "/var/log/events")))
    as (fm & casts & rules & processor & rest & Hfm & Hstep & Ht).
  - vm_compute. find_in_trace.
  - exists rest. clear Hfm Hstep. vm_compute in Ht. simplify_eq.
    vm_compute. reflexivity.
Defined.

Lemma Create_hands_over_queue_witness :
  openQueues [] (trace Demo.postgresStream) = [("queue.dst=pg", "/var/log/events")] ∧
  (∀ q, call_Close q ∉ trace Demo.postgresStream).
Proof.
  destruct (@Create_hands_over_queue Demo.externals tt "pg" "/var/log/events"
              (Demo.destinationOf "postgres" "stream" None []) tt tt tt)
    as [Hopen Hclose].
  - vm_compute. reflexivity.
  - split; [exact Hopen | exact Hclose].
Defined.

Lemma Create_closes_own_queue_only_witness :
  err (value Demo.mysqlStream) = Some unknownDestination ∧
  (effectiveType "mysql" (Demo.destinationOf "" "stream" None []) ∉ recognizedTypes) ∧
  @call_NewPersistentQueue Demo.externals "queue.dst=mysql" "/var/log/events"
    (Ok ("queue.dst=mysql", "/var/log/events")) ∈ trace Demo.mysqlStream.
Proof.
  apply (@Create_closes_own_queue_only Demo.externals tt "mysql" "/var/log/events"
           (Demo.destinationOf "" "stream" None []) tt tt tt
           ("queue.dst=mysql", "/var/log/events")).
  vm_compute. find_in_trace.
Defined.


Lemma Create_ignores_path_outside_stream_witness :
  Demo.run "pg" "/var/log/events" (Demo.destinationOf "postgres" "" None ["geo"])
  = Demo.run "pg" "" (Demo.destinationOf "postgres" "" None ["geo"]).
Proof.
  apply (@Create_ignores_path_outside_stream Demo.externals tt "pg" "/var/log/events" ""
           (Demo.destinationOf "postgres" "" None ["geo"]) tt tt tt).
  vm_compute. discriminate.
Defined.

Lemma Create_reads_settings_only_witness :
  err (value (Strict.run "pg" "/var/log/events" Strict.keyed))
  = err (value (Strict.run "pg" "/var/log/events" Strict.keyedWithAdapter)) ∧
  queue (value (Strict.run "pg" "/var/log/events" Strict.keyed))
  = queue (value (Strict.run "pg" "/var/log/events" Strict.keyedWithAdapter)) ∧
  factoryMethod <$> storageProxy (value (Strict.run "pg" "/var/log/events" Strict.keyed))
  = factoryMethod <$> storageProxy (value (Strict.run "pg" "/var/log/events"
                                             Strict.keyedWithAdapter)).
Proof.
  apply (@Create_reads_settings_only Strict.externals tt tt "pg" "/var/log/events"
           Strict.keyed Strict.keyedWithAdapter tt tt tt tt tt tt).
  vm_compute. repeat split.
Defined.

Lemma Create_checks_type_last_witness :
  value Demo.mysqlStream = returned None None (Some unknownDestination) ∧
  wiringCalls (trace Demo.mysqlStream) =
    [@call_NewFieldMapper Demo.externals "default" [] None;
     @call_NewMappingStep Demo.externals "mysql" "events" [] ["ip"; "ua"] false;
     @call_NewPersistentQueue Demo.externals "queue.dst=mysql" "/var/log/events"
       (Ok ("queue.dst=mysql", "/var/log/events"));
     @call_Close Demo.externals ("queue.dst=mysql", "/var/log/events")].
Proof.
  apply (@Create_checks_type_last Demo.externals tt "mysql" "/var/log/events"
           (Demo.destinationOf "" "stream" None []) tt tt tt [] [] ∅ "events"
           ("queue.dst=mysql", "/var/log/events")).
  - vm_compute. reflexivity.
  - constructor.
  - vm_compute. reflexivity.
  - vm_compute. reflexivity.
  - vm_compute. reflexivity.
  - vm_compute. intros Hin. in_trace Hin.
Defined.

Lemma Create_rule_calls_witness :
  ruleCalls (trace (Demo.run "pg" "/var/log/events" Demo.brokenRule)) = ["geo"; "broken"] ∧
  ruleCalls (trace (Demo.run "pg" "/var/log/events" Demo.brokenRuleInvalidMode)) = [].
Proof.
  split.
  - etransitivity;
      [apply (@Create_rule_calls Demo.externals tt "pg" "/var/log/events" Demo.brokenRule
                tt tt tt)|].
    vm_compute. reflexivity.
  - etransitivity;
      [apply (@Create_rule_calls Demo.externals tt "pg" "/var/log/events"
                Demo.brokenRuleInvalidMode tt tt tt)|].
    vm_compute. reflexivity.
Defined.

Lemma Create_succeeds_iff_witness :
  err (value (Strict.run "pg" "/var/log/events" Strict.keyed)) = None.
Proof.
  apply (@Create_succeeds_iff Strict.externals tt "pg" "/var/log/events" Strict.keyed
           tt tt tt).
  split; [vm_compute; by right|]. split; [|split].
  - exists ["geo"], [], ∅. split; [repeat constructor|]. split; vm_compute; reflexivity.
  - intros _. vm_compute. reflexivity.
  - vm_compute. find_in_trace.
Defined.

Lemma Create_builds_proxy_iff_success_witness :
  ¬ ∃ factoryMethod config,
      call_newProxy factoryMethod config ∈ trace Demo.mysqlStream.
Proof.
  intros Hcall.
  apply (@Create_builds_proxy_iff_success Demo.externals tt "mysql" "/var/log/events"
           (Demo.destinationOf "" "stream" None []) tt tt tt) in Hcall.
  vm_compute in Hcall. discriminate Hcall.
Defined.
